(** * Colocations.py: time windows, pairwise intersections, co-location events

    A shallow embedding of the [Colocation] class of [src/Colocations.py]:
    [users_mapping], [dataframe_split], [get_intersections] and
    [get_colocations].  A pandas DataFrame is a list of rows (a list of
    indexed rows where the index is observable), a Series of integers a
    [list Z], a Python [dict] a [gmap].  Exceptions are values of [result]. *)

From Stdlib Require Import Floats.
From stdpp Require Import base numbers option list gmap.

Local Open Scope Z_scope.

(** ** Python exceptions *)

Inductive exn := ValueError | OverflowError.

Inductive result (A : Type) :=
  | Ok (a : A)
  | Raise (e : exn).
Arguments Ok {A} a.
Arguments Raise {A} e.

Definition result_bind {A B} (m : result A) (k : A → result B) : result B :=
  match m with
  | Ok a => k a
  | Raise e => Raise e
  end.

Notation "'let*' x ':=' m 'in' k" := (result_bind m (fun x => k))
  (at level 10, x name, m at level 100, k at level 200, only parsing).

Definition raises {A} (m : result A) : Prop := ∃ e, m = Raise e.

(** ** Series and DataFrame primitives *)

(** [Series.min()] and [Series.max()] over an integer column; the empty
    column gives NaN, here [None]. *)
Definition series_min (s : list Z) : option Z :=
  match s with
  | [] => None
  | x :: s' => Some (foldl Z.min x s')
  end.

Definition series_max (s : list Z) : option Z :=
  match s with
  | [] => None
  | x :: s' => Some (foldl Z.max x s')
  end.

(** [Series.unique()]: the distinct values in order of first appearance,
    collected through a hash table of the values seen so far. *)
Fixpoint unique_from `{Countable A} (seen : gset A) (s : list A) : list A :=
  match s with
  | [] => []
  | x :: s' =>
      if decide (x ∈ seen) then unique_from seen s'
      else x :: unique_from ({[x]} ∪ seen) s'
  end.

Definition unique `{Countable A} (s : list A) : list A := unique_from ∅ s.

(** [dict(pairs)]: later bindings of a key replace earlier ones. *)
Definition dict `{Countable K} {V} (pairs : list (K * V)) : gmap K V :=
  foldl (λ d kv, <[kv.1 := kv.2]> d) ∅ pairs.

(** A DataFrame whose index labels matter: rows paired with their label. *)
Definition DataFrame (row : Type) : Type := list (nat * row).

(** [pd.DataFrame(rows)]: a fresh RangeIndex. *)
Definition pd_DataFrame {row} (rows : list row) : DataFrame row :=
  zip (seq 0 (length rows)) rows.

(** [pd.concat([a, b])] keeps the labels of both frames. *)
Definition pd_concat {row} (a b : DataFrame row) : DataFrame row := a ++ b.

(** [df.reset_index().filter(columns)]: labels 0, 1, 2, ... in row order. *)
Definition reset_index {row} (df : DataFrame row) : DataFrame row :=
  zip (seq 0 (length df)) df.*2.

(** ** Rows *)

(** A row of [df_int]: columns [uid_1, timestamp_uid_1, uid_2, timestamp_uid_2]. *)
Record OverlapEvent := mk_overlap {
  uid_1 : Z;
  timestamp_uid_1 : Z;
  uid_2 : Z;
  timestamp_uid_2 : Z
}.

(** The strings ["up"] and ["down"] of the [connection] column. *)
Inductive connection := up | down.

(** A row of [df_coloc]: columns [node_1, node_2, timestamp, connection].
    The timestamp cell holds the result of a Series reduction. *)
Record ColocationEvent := mk_coloc {
  node_1 : Z;
  node_2 : Z;
  timestamp : option Z;
  conn : connection
}.

Global Instance OverlapEvent_eq_dec : EqDecision OverlapEvent.
Proof. solve_decision. Defined.
Global Instance connection_eq_dec : EqDecision connection.
Proof. solve_decision. Defined.
Global Instance ColocationEvent_eq_dec : EqDecision ColocationEvent.
Proof. solve_decision. Defined.

(** The key [(uid_1, uid_2)] of an overlap row. *)
Definition couple_of (e : OverlapEvent) : Z * Z := (uid_1 e, uid_2 e).

Section Traces.
(** The geometry column is built by geopandas ([points_from_xy(...).buffer(...)])
    and compared by shapely's [intersects]; both are parameters here, and
    [Shapely] below gives the polygons and the test of the two libraries. *)
Context {geometry : Type}.
Variable intersects : geometry → geometry → bool.
(** The order in which Python iterates over [set(pairs)], [pairs] being the
    keys in insertion order. *)
Variable set_iter : list (Z * Z) → list (Z * Z).

(** A row of the mobility trace. *)
Record record := mk_record {
  user_id : Z;
  latitude : float;
  longitude : float;
  sampletimestamp : Z;
  accuracy : float;
  short_range_communication_area : geometry
}.

(** *** [users_mapping] *)

(** [data.replace({"user_id": map_uid})]: every id that is a key of the dict is
    replaced by its value, all at once; other ids stay. *)
Definition replace_user_id (map_uid : gmap Z Z) (r : record) : record :=
  mk_record (default (user_id r) (map_uid !! user_id r))
    (latitude r) (longitude r) (sampletimestamp r) (accuracy r)
    (short_range_communication_area r).

Definition users_mapping (data : list record) : list record :=
  let users := unique (user_id <$> data) in
  let map_uid := dict (zip users (Z.of_nat <$> seq 0 (length users))) in
  replace_user_id map_uid <$> data.

(** *** [dataframe_split] *)

(** The boolean mask of the slice:
    [(sampletimestamp >= min_stp) & (sampletimestamp <= min_stp + tw)]. *)
Definition in_window (min_stp tw : Z) (r : record) : Prop :=
  min_stp ≤ sampletimestamp r ∧ sampletimestamp r ≤ min_stp + tw.

Global Instance in_window_dec min_stp tw r : Decision (in_window min_stp tw r).
Proof. unfold in_window. apply _. Defined.

(** [int((max_stp - min_stp) / tw) + 1].  The operands are numpy integers, so
    the quotient is a float: dividing by zero gives an infinity, or NaN for
    0/0, and [int] raises on both.  Otherwise [int] truncates toward zero.
    The model takes the integer quotient, which is what the code computes as
    long as the difference does not leave the 64-bit range and the span and
    the width are below 2^53 in absolute value: the range [exact_split]
    below, a hypothesis of every theorem on the number or the content of the
    partitions. *)
Definition window_count (min_stp max_stp tw : Z) : result Z :=
  if decide (tw = 0) then
    if decide (max_stp - min_stp = 0) then Raise ValueError
    else Raise OverflowError
  else Ok ((max_stp - min_stp) `quot` tw + 1).

(** The body of [for i in range(df_s)], iterated [n] times from the state
    [(min_stp, df_split_list)].  The sum [min_stp + tw] is taken in [Z]; it is
    the sum of the code as long as no bound leaves the 64-bit range, which
    [exact_split] also asks. *)
Fixpoint split_loop (data : list record) (tw : Z) (n : nat)
    (min_stp : Z) (df_split_list : list (list record)) : list (list record) :=
  match n with
  | O => df_split_list
  | S n' =>
      let df_temp := filter (in_window min_stp tw) data in
      split_loop data tw n' (min_stp + tw) (df_split_list ++ [df_temp])
  end.

(** [min()] and [max()] of an empty column are NaN, and so is the quotient. *)
Definition dataframe_split (data : list record) (tw : Z)
    : result (list (list record)) :=
  match series_min (sampletimestamp <$> data),
        series_max (sampletimestamp <$> data) with
  | Some min_stp, Some max_stp =>
      let* df_s := window_count min_stp max_stp tw in
      Ok (split_loop data tw (Z.to_nat df_s) min_stp [])
  | _, _ => Raise ValueError
  end.

(** *** [get_intersections] *)

(** The dict [df_dfs]: the rows of each user of the partition. *)
Definition df_dfs_of (single_df_split : list record) (users : list Z)
    : gmap Z (list record) :=
  foldl (λ d user,
           <[user := filter (λ r, user_id r = user) single_df_split]> d)
        ∅ users.

(** The test and the append of the innermost loop body. *)
Definition intersection_row (i j : record) : list OverlapEvent :=
  if intersects (short_range_communication_area i)
                (short_range_communication_area j)
  then [mk_overlap (user_id i) (sampletimestamp i)
                   (user_id j) (sampletimestamp j)]
  else [].

(** The rows appended to [intersections] for one partition: the loops over
    [k], [i], [usr] and [j], in that nesting. *)
Definition intersections (single_df_split : list record) : list OverlapEvent :=
  let users := unique (user_id <$> single_df_split) in
  let df_dfs := df_dfs_of single_df_split users in
  k ← seq 0 (length users - 1)%nat;
  match users !! k with
  | Some subject =>
      let other_users := drop (S k) users in
      i ← df_dfs !!! subject;
      usr ← other_users;
      j ← df_dfs !!! usr;
      intersection_row i j
  | None => []
  end.

(** [dataframe_split] is called with its default, [tw=150]. *)
Definition get_intersections (data : list record)
    : result (list (list OverlapEvent)) :=
  let* df_split := dataframe_split data 150 in
  Ok (intersections <$> df_split).

(** *** [get_colocations] *)

(** [[list(c) for c in set(tuple(c) for c in [[uid_1, uid_2] ...])]]. *)
Definition users_couples (df : list OverlapEvent) : list (Z * Z) :=
  set_iter (couple_of <$> df).

(** [df[(df.uid_1 == couple[0]) & (df.uid_2 == couple[1])]]. *)
Definition sc_of (df : list OverlapEvent) (couple : Z * Z) : list OverlapEvent :=
  filter (λ e, uid_1 e = couple.1 ∧ uid_2 e = couple.2) df.

(** [pd.concat([sc.timestamp_uid_1, sc.timestamp_uid_2])]. *)
Definition df_time_of (sc : list OverlapEvent) : list Z :=
  (timestamp_uid_1 <$> sc) ++ (timestamp_uid_2 <$> sc).

(** The four rows appended to [coloc] for one couple. *)
Definition couple_rows (df : list OverlapEvent) (couple : Z * Z)
    : list ColocationEvent :=
  let sc := sc_of df couple in
  let df_time := df_time_of sc in
  [ mk_coloc couple.1 couple.2 (series_min df_time) up;
    mk_coloc couple.1 couple.2 (series_max df_time) down;
    mk_coloc couple.2 couple.1 (series_min df_time) up;
    mk_coloc couple.2 couple.1 (series_max df_time) down ].

(** The list [coloc] of one partition. *)
Definition coloc (df : list OverlapEvent) : list ColocationEvent :=
  couple ← users_couples df; couple_rows df couple.

(** The loop over [df_dfs_int], from the empty frame [df_ac]. *)
Definition concat_windows (df_dfs_int : list (list OverlapEvent))
    : DataFrame ColocationEvent :=
  foldl (λ df_ac df, pd_concat df_ac (pd_DataFrame (coloc df))) [] df_dfs_int.

(** The returned table.  The write of line 239 to [output//co_locations.csv]
    is not modelled: [Ok out] is the table that is returned when the write
    succeeds, and the theorems on the table take it as a hypothesis. *)
Definition get_colocations (data : list record)
    : result (DataFrame ColocationEvent) :=
  let* df_dfs_int := get_intersections data in
  Ok (reset_index (concat_windows df_dfs_int)).

End Traces.

Arguments mk_record {geometry} _ _ _ _ _ _.
Arguments user_id {geometry} _.
Arguments sampletimestamp {geometry} _.
Arguments short_range_communication_area {geometry} _.
Arguments latitude {geometry} _.
Arguments longitude {geometry} _.
Arguments accuracy {geometry} _.

(** ** The steps before the split *)

(** A Python [int] as a float64, as numpy converts the integer operand of a
    comparison with, or a division into, a float: the nearest float64, ties to
    even. *)
Definition float_of_int (z : Z) : float :=
  SF2Prim (SpecFloat.binary_normalize prec emax z 0 false).

Section Preprocessing.
Context {geometry : Type}.
(** [points_from_xy(latitude, longitude).buffer(distance)], computed by
    geopandas. *)
Variable buffer : float → float → float → geometry.

(** [data.loc[data.accuracy <= limit]]. *)
Definition accuracy_threshold {G} (data : list (@record G)) (limit : Z)
    : list (@record G) :=
  filter (λ r, PrimFloat.leb (accuracy r) (float_of_int limit) = true) data.

(** The new column is computed from the position of each row; a column of
    that name already there is replaced. *)
Definition add_short_range_communication_area {G} (data : list (@record G))
    (dst : Z) : list (@record geometry) :=
  (λ r, mk_record (user_id r) (latitude r) (longitude r) (sampletimestamp r)
          (accuracy r)
          (buffer (latitude r) (longitude r)
                  (PrimFloat.div (float_of_int dst) 100000%float))) <$> data.

(** [sampletimestamp.values.astype(np.int64) // 10 ** 9]: the column holds
    datetimes, that is nanoseconds since the epoch as 64-bit integers, and
    [//] rounds toward minus infinity. *)
Definition from_datetime_to_timestamp {G} (data : list (@record G))
    : list (@record G) :=
  (λ r, mk_record (user_id r) (latitude r) (longitude r)
          (sampletimestamp r `div` 10 ^ 9) (accuracy r)
          (short_range_communication_area r)) <$> data.

End Preprocessing.

(** ** The arithmetic of [dataframe_split], as the machine does it

    [min_stp] and [max_stp] are numpy 64-bit integers: their difference and
    the sums [min_stp + tw] wrap around (the warnings are silenced at line
    27), and [/] divides the two operands as float64.  [Int64.dataframe_split]
    spells this out.  In the range [exact_split] it is [dataframe_split] as
    soon as the window count is the same (lemma [int64_split_exact]); at the
    ends of the 64-bit range and for spans beyond 2^53 it is not. *)
Module Int64.
Section Split.
Context {geometry : Type}.
Implicit Types (data : list (@record geometry)).

Definition wrap (z : Z) : Z := (z + 2 ^ 63) `mod` 2 ^ 64 - 2 ^ 63.

(** Python's [int(x)] of a float: truncation toward zero; [OverflowError] on
    an infinity, [ValueError] on NaN. *)
Definition int (x : float) : result Z :=
  match Prim2SF x with
  | SpecFloat.S754_zero _ => Ok 0
  | SpecFloat.S754_finite s m e =>
      let n := if decide (0 ≤ e) then Z.pos m * 2 ^ e
               else Z.pos m `div` 2 ^ (- e) in
      Ok (if s then - n else n)
  | SpecFloat.S754_infinity _ => Raise OverflowError
  | SpecFloat.S754_nan => Raise ValueError
  end.

(** [int((max_stp - min_stp) / tw) + 1]. *)
Definition window_count (min_stp max_stp tw : Z) : result Z :=
  let* q := int (PrimFloat.div (float_of_int (wrap (max_stp - min_stp)))
                               (float_of_int tw)) in
  Ok (q + 1).

Fixpoint split_loop data (tw : Z) (n : nat)
    (min_stp : Z) (df_split_list : list (list record)) : list (list record) :=
  match n with
  | O => df_split_list
  | S n' =>
      let df_temp :=
        filter (λ r, min_stp ≤ sampletimestamp r ∧
                     sampletimestamp r ≤ wrap (min_stp + tw)) data in
      split_loop data tw n' (wrap (min_stp + tw)) (df_split_list ++ [df_temp])
  end.

Definition dataframe_split data (tw : Z) : result (list (list record)) :=
  match series_min (sampletimestamp <$> data),
        series_max (sampletimestamp <$> data) with
  | Some min_stp, Some max_stp =>
      let* df_s := window_count min_stp max_stp tw in
      Ok (split_loop data tw (Z.to_nat df_s) min_stp [])
  | _, _ => Raise ValueError
  end.

End Split.
End Int64.

(** ** CPython's [set] of pairs of integers

    The language leaves the iteration order of a set open; CPython (3.8 and
    later) fixes it as the slot order of an open-addressing table indexed by the
    hash of the tuple.  This is a transcription of [tuplehash]
    (Objects/tupleobject.c) and of [set_add_entry], [set_insert_clean] and
    [set_table_resize] (Objects/setobject.c) for tables without deletions.
    Hashes are kept as unsigned 64-bit values. *)
Module CPython.

Definition wrap64 (z : Z) : Z := z `mod` 2 ^ 64.

Definition XXPRIME_1 : Z := 11400714785074694791.
Definition XXPRIME_2 : Z := 14029467366897019727.
Definition XXPRIME_5 : Z := 2870177450012600261.

Definition XXROTATE (x : Z) : Z := wrap64 (Z.lor (x ≪ 31) (x ≫ 33)).

(** The hash of an integer: its residue modulo 2^61 - 1 with its sign, -1
    being reserved. *)
Definition long_hash (n : Z) : Z :=
  let h := Z.sgn n * (Z.abs n `mod` (2 ^ 61 - 1)) in
  if decide (h = -1) then -2 else h.

Definition tuplehash_step (acc item : Z) : Z :=
  let lane := wrap64 (long_hash item) in
  let acc := wrap64 (acc + lane * XXPRIME_2) in
  let acc := XXROTATE acc in
  wrap64 (acc * XXPRIME_1).

Definition tuplehash (v : list Z) : Z :=
  let acc := foldl tuplehash_step XXPRIME_5 v in
  let acc := wrap64 (acc + Z.lxor (Z.of_nat (length v))
                                  (Z.lxor XXPRIME_5 3527539)) in
  if decide (acc = 2 ^ 64 - 1) then 1546275796 else acc.

Definition LINEAR_PROBES : Z := 9.
Definition PERTURB_SHIFT : Z := 5.
Definition PySet_MINSIZE : Z := 8.

Record setentry := mk_setentry { key : Z * Z; hash : Z }.

Record setobject := mk_setobject {
  fill : Z;
  used : Z;
  mask : Z;
  table : list (option setentry)
}.

Inductive probe := Unused (slot : nat) | Active | Next.

(** The entry at [i] and up to [probes] entries after it.  With [clean] no
    key is compared, as in [set_insert_clean]. *)
Fixpoint linear_probes (clean : bool) (t : list (option setentry))
    (k : Z * Z) (h : Z) (i probes : nat) : probe :=
  match t !! i with
  | Some None => Unused i
  | Some (Some e) =>
      if negb clean && bool_decide (hash e = h ∧ key e = k) then Active
      else match probes with
           | O => Next
           | S probes' => linear_probes clean t k h (S i) probes'
           end
  | None => Next
  end.

(** The outer [while (1)] of the lookup, with the perturbed recurrence. *)
Fixpoint lookup_loop (fuel : nat) (clean : bool) (t : list (option setentry))
    (mask : Z) (k : Z * Z) (h : Z) (i perturb : Z) : option probe :=
  match fuel with
  | O => None
  | S fuel' =>
      let probes := if decide (i + LINEAR_PROBES ≤ mask)
                    then Z.to_nat LINEAR_PROBES else O in
      match linear_probes clean t k h (Z.to_nat i) probes with
      | Next =>
          let perturb := perturb ≫ PERTURB_SHIFT in
          lookup_loop fuel' clean t mask k h
            (Z.land (i * 5 + 1 + perturb) mask) perturb
      | found => Some found
      end
  end.

(** Enough rounds for the perturbation to vanish and the recurrence to
    visit every slot. *)
Definition rounds (mask : Z) : nat := Z.to_nat (mask + 1 + 16).

Definition set_insert_clean (t : list (option setentry)) (mask : Z)
    (e : setentry) : option (list (option setentry)) :=
  match lookup_loop (rounds mask) true t mask (key e) (hash e)
          (Z.land (hash e) mask) (hash e) with
  | Some (Unused slot) => Some (<[slot := Some e]> t)
  | _ => None
  end.

Fixpoint grow (fuel : nat) (newsize minused : Z) : Z :=
  match fuel with
  | O => newsize
  | S fuel' =>
      if decide (newsize ≤ minused) then grow fuel' (newsize ≪ 1) minused
      else newsize
  end.

Definition set_table_resize (so : setobject) (minused : Z) : option setobject :=
  let newsize := grow 64 PySet_MINSIZE minused in
  let newmask := newsize - 1 in
  t ← foldl (λ acc slot,
               match slot with
               | Some e => acc ≫= (λ t, set_insert_clean t newmask e)
               | None => acc
               end)
            (Some (replicate (Z.to_nat newsize) None)) (table so);
  Some (mk_setobject (used so) (used so) newmask t).

Definition set_add_entry (so : setobject) (k : Z * Z) (h : Z) : option setobject :=
  match lookup_loop (rounds (mask so)) false (table so) (mask so) k h
          (Z.land h (mask so)) h with
  | Some Active => Some so
  | Some (Unused slot) =>
      let so' := mk_setobject (fill so + 1) (used so + 1) (mask so)
                   (<[slot := Some (mk_setentry k h)]> (table so)) in
      if decide (fill so' * 5 < mask so' * 3) then Some so'
      else set_table_resize so'
             (if decide (50000 < used so') then used so' * 2 else used so' * 4)
  | _ => None
  end.

Definition set_add_key (so : setobject) (k : Z * Z) : option setobject :=
  set_add_entry so k (tuplehash [k.1; k.2]).

Definition set_new : setobject :=
  mk_setobject 0 0 (PySet_MINSIZE - 1)
    (replicate (Z.to_nat PySet_MINSIZE) None).

(** [set(iterable)]: the keys are added in the order the iterable yields them. *)
Definition set_of (keys : list (Z * Z)) : option setobject :=
  foldl (λ acc k, acc ≫= (λ so, set_add_key so k)) (Some set_new) keys.

(** Iteration walks the table from its first slot. *)
Definition set_iter (keys : list (Z * Z)) : list (Z * Z) :=
  match set_of keys with
  | Some so => key <$> omap id (table so)
  | None => []
  end.

End CPython.

(** ** Shapely's buffered points

    [points_from_xy(x, y).buffer(d)] is not a disk but a polygon: GEOS walks
    the circle clockwise from the x axis in 64 steps of pi/32 and puts a vertex
    [(x + d * cos a, y + d * sin a)] at each step, in float64.  [intersects] is
    exact on these coordinates: two polygons intersect when they share a point.
    The cosines and sines are tabulated here as float64; the test is the
    separating-axis test over the edges of both rings, which decides
    intersection of convex polygons. *)
Module Shapely.

Definition polygon : Type := list (float * float).

Definition directions : list (float * float) :=
  [ (0x1.0000000000000p+0%float, 0x0.0p+0%float);
    (0x1.fd88da3d12526p-1%float, (-0x1.917a6bc29b42cp-4)%float);
    (0x1.f6297cff75cb0p-1%float, (-0x1.8f8b83c69a60ap-3)%float);
    (0x1.e9f4156c62ddap-1%float, (-0x1.294062ed59f05p-2)%float);
    (0x1.d906bcf328d46p-1%float, (-0x1.87de2a6aea963p-2)%float);
    (0x1.c38b2f180bdb1p-1%float, (-0x1.e2b5d3806f63bp-2)%float);
    (0x1.a9b66290ea1a3p-1%float, (-0x1.1c73b39ae68c8p-1)%float);
    (0x1.8bc806b151741p-1%float, (-0x1.44cf325091dd6p-1)%float);
    (0x1.6a09e667f3bcdp-1%float, (-0x1.6a09e667f3bccp-1)%float);
    (0x1.44cf325091dd6p-1%float, (-0x1.8bc806b151741p-1)%float);
    (0x1.1c73b39ae68c9p-1%float, (-0x1.a9b66290ea1a3p-1)%float);
    (0x1.e2b5d3806f63ep-2%float, (-0x1.c38b2f180bdb0p-1)%float);
    (0x1.87de2a6aea964p-2%float, (-0x1.d906bcf328d46p-1)%float);
    (0x1.294062ed59f05p-2%float, (-0x1.e9f4156c62ddbp-1)%float);
    (0x1.8f8b83c69a60dp-3%float, (-0x1.f6297cff75cb0p-1)%float);
    (0x1.917a6bc29b438p-4%float, (-0x1.fd88da3d12525p-1)%float);
    (0x1.1a62633145c07p-54%float, (-0x1.0000000000000p+0)%float);
    ((-0x1.917a6bc29b42fp-4)%float, (-0x1.fd88da3d12526p-1)%float);
    ((-0x1.8f8b83c69a608p-3)%float, (-0x1.f6297cff75cb0p-1)%float);
    ((-0x1.294062ed59f02p-2)%float, (-0x1.e9f4156c62ddbp-1)%float);
    ((-0x1.87de2a6aea962p-2)%float, (-0x1.d906bcf328d46p-1)%float);
    ((-0x1.e2b5d3806f63cp-2)%float, (-0x1.c38b2f180bdb1p-1)%float);
    ((-0x1.1c73b39ae68c6p-1)%float, (-0x1.a9b66290ea1a5p-1)%float);
    ((-0x1.44cf325091dd5p-1)%float, (-0x1.8bc806b151742p-1)%float);
    ((-0x1.6a09e667f3bccp-1)%float, (-0x1.6a09e667f3bcdp-1)%float);
    ((-0x1.8bc806b151741p-1)%float, (-0x1.44cf325091dd6p-1)%float);
    ((-0x1.a9b66290ea1a4p-1)%float, (-0x1.1c73b39ae68c8p-1)%float);
    ((-0x1.c38b2f180bdb0p-1)%float, (-0x1.e2b5d3806f63fp-2)%float);
    ((-0x1.d906bcf328d46p-1)%float, (-0x1.87de2a6aea965p-2)%float);
    ((-0x1.e9f4156c62ddap-1)%float, (-0x1.294062ed59f06p-2)%float);
    ((-0x1.f6297cff75cb0p-1)%float, (-0x1.8f8b83c69a617p-3)%float);
    ((-0x1.fd88da3d12525p-1)%float, (-0x1.917a6bc29b43cp-4)%float);
    ((-0x1.0000000000000p+0)%float, (-0x1.1a62633145c07p-53)%float);
    ((-0x1.fd88da3d12526p-1)%float, 0x1.917a6bc29b42bp-4%float);
    ((-0x1.f6297cff75cb0p-1)%float, 0x1.8f8b83c69a60ep-3%float);
    ((-0x1.e9f4156c62ddbp-1)%float, 0x1.294062ed59f01p-2%float);
    ((-0x1.d906bcf328d47p-1)%float, 0x1.87de2a6aea961p-2%float);
    ((-0x1.c38b2f180bdb1p-1)%float, 0x1.e2b5d3806f63bp-2%float);
    ((-0x1.a9b66290ea1a5p-1)%float, 0x1.1c73b39ae68c6p-1%float);
    ((-0x1.8bc806b151742p-1)%float, 0x1.44cf325091dd4p-1%float);
    ((-0x1.6a09e667f3bcep-1)%float, 0x1.6a09e667f3bccp-1%float);
    ((-0x1.44cf325091ddap-1)%float, 0x1.8bc806b15173ep-1%float);
    ((-0x1.1c73b39ae68c8p-1)%float, 0x1.a9b66290ea1a3p-1%float);
    ((-0x1.e2b5d3806f63fp-2)%float, 0x1.c38b2f180bdb0p-1%float);
    ((-0x1.87de2a6aea96dp-2)%float, 0x1.d906bcf328d44p-1%float);
    ((-0x1.294062ed59f07p-2)%float, 0x1.e9f4156c62ddap-1%float);
    ((-0x1.8f8b83c69a619p-3)%float, 0x1.f6297cff75cafp-1%float);
    ((-0x1.917a6bc29b421p-4)%float, 0x1.fd88da3d12526p-1%float);
    ((-0x1.a79394c9e8a0ap-53)%float, 0x1.0000000000000p+0%float);
    (0x1.917a6bc29b407p-4%float, 0x1.fd88da3d12526p-1%float);
    (0x1.8f8b83c69a60cp-3%float, 0x1.f6297cff75cb0p-1%float);
    (0x1.294062ed59f00p-2%float, 0x1.e9f4156c62ddbp-1%float);
    (0x1.87de2a6aea967p-2%float, 0x1.d906bcf328d45p-1%float);
    (0x1.e2b5d3806f63ap-2%float, 0x1.c38b2f180bdb1p-1%float);
    (0x1.1c73b39ae68c5p-1%float, 0x1.a9b66290ea1a5p-1%float);
    (0x1.44cf325091dd7p-1%float, 0x1.8bc806b151740p-1%float);
    (0x1.6a09e667f3bcbp-1%float, 0x1.6a09e667f3bcep-1%float);
    (0x1.8bc806b15173ep-1%float, 0x1.44cf325091ddap-1%float);
    (0x1.a9b66290ea1a3p-1%float, 0x1.1c73b39ae68c8p-1%float);
    (0x1.c38b2f180bdafp-1%float, 0x1.e2b5d3806f640p-2%float);
    (0x1.d906bcf328d44p-1%float, 0x1.87de2a6aea96ep-2%float);
    (0x1.e9f4156c62ddap-1%float, 0x1.294062ed59f08p-2%float);
    (0x1.f6297cff75cafp-1%float, 0x1.8f8b83c69a61bp-3%float);
    (0x1.fd88da3d12526p-1%float, 0x1.917a6bc29b425p-4%float) ].

Definition buffer (x y d : float) : polygon :=
  (λ cs, (PrimFloat.add x (PrimFloat.mul d cs.1),
          PrimFloat.add y (PrimFloat.mul d cs.2))) <$> directions.

(** The exact value of a finite float, as a multiple of 2^-1074. *)
Definition scaled (f : float) : option Z :=
  match Prim2SF f with
  | SpecFloat.S754_zero _ => Some 0
  | SpecFloat.S754_finite s m e =>
      Some ((if s then -1 else 1) * Z.pos m * 2 ^ (e + 1074))
  | _ => None
  end.

Definition scaled_point (v : float * float) : option (Z * Z) :=
  x ← scaled v.1; y ← scaled v.2; Some (x, y).

Definition scaled_ring (a : polygon) : option (list (Z * Z)) :=
  mapM scaled_point a.

Definition dot (n v : Z * Z) : Z := n.1 * v.1 + n.2 * v.2.

(** The normals of the edges of a ring, each edge joining a vertex to the
    next one around. *)
Definition normals (a : list (Z * Z)) : list (Z * Z) :=
  (λ e, (e.2.2 - e.1.2, e.1.1 - e.2.1)) <$> zip a (rotate 1 a).

(** The projections of the two rings on [n] do not meet. *)
Definition separates (n : Z * Z) (a b : list (Z * Z)) : bool :=
  match series_min (dot n <$> a), series_max (dot n <$> a),
        series_min (dot n <$> b), series_max (dot n <$> b) with
  | Some min_a, Some max_a, Some min_b, Some max_b =>
      bool_decide (max_a < min_b ∨ max_b < min_a)
  | _, _, _, _ => false
  end.

Definition intersects (a b : polygon) : bool :=
  match scaled_ring a, scaled_ring b with
  | Some a', Some b' =>
      forallb (λ n, negb (separates n a' b')) (normals a' ++ normals b')
  | _, _ => false
  end.

End Shapely.


(** ** Python's [set], as the language specifies it

    Whatever the implementation, iterating over [set(keys)] yields every key
    once, in some order. *)
Class PySet := {
  py_set_iter : list (Z * Z) → list (Z * Z);
  py_set_iter_NoDup keys : NoDup (py_set_iter keys);
  py_set_iter_elem keys c : c ∈ py_set_iter keys ↔ c ∈ keys
}.

(** ** Vocabulary of the statements *)

(** [c'] is the pair [c] in one of its two orientations. *)
Definition same_pair (c c' : Z * Z) : Prop := c' = c ∨ c' = (c.2, c.1).

Global Instance same_pair_dec c c' : Decision (same_pair c c').
Proof. unfold same_pair. apply _. Defined.

(** The overlap rows between the two users of [c], whichever comes first. *)
Definition events_between (c : Z * Z) (df : list OverlapEvent) : list OverlapEvent :=
  filter (λ e, same_pair c (couple_of e)) df.

(** The co-location rows between the two users of [c], in both directions. *)
Definition rows_between (c : Z * Z) (rows : list ColocationEvent)
    : list ColocationEvent :=
  filter (λ r, same_pair c (node_1 r, node_2 r)) rows.

(** The start of the [i]-th window. *)
Definition window_start (min_stp tw : Z) (i : nat) : Z := min_stp + Z.of_nat i * tw.

(** The rows of [data] in the [i]-th window, both bounds included. *)
Definition slice {geometry} (data : list (@record geometry)) (min_stp tw : Z)
    (i : nat) : list record :=
  filter (in_window (window_start min_stp tw i) tw) data.

(** All rows between two users list them in the same order. *)
Definition oriented (df : list OverlapEvent) : Prop :=
  ∀ e e', e ∈ df → e' ∈ df →
    same_pair (couple_of e) (couple_of e') → couple_of e' = couple_of e.

(** The rows of one window if the couples were taken in the order of their
    first overlap row, as the specification words it. *)
Definition coloc_in_discovery_order (df : list OverlapEvent)
    : list ColocationEvent :=
  couple ← unique (couple_of <$> df); couple_rows df couple.

(** The four rows of a contact between [a] and [b] from [t] to [t']. *)
Definition block (g : Z * Z * Z * Z) : list ColocationEvent :=
  let '(a, b, t, t') := g in
  [ mk_coloc a b (Some t) up; mk_coloc a b (Some t') down;
    mk_coloc b a (Some t) up; mk_coloc b a (Some t') down ].

(** The overlap row [e] with its users relabelled by [f]. *)
Definition relabel (f : Z → Z) (e : OverlapEvent) : OverlapEvent :=
  mk_overlap (f (uid_1 e)) (timestamp_uid_1 e) (f (uid_2 e)) (timestamp_uid_2 e).

(** The contact that the rows of couple [c] in [df] describe: both users,
    first and last instant. *)
Definition contact (df : list OverlapEvent) (c : Z * Z) : Z * Z * Z * Z :=
  (c.1, c.2, default 0 (series_min (df_time_of (sc_of df c))),
             default 0 (series_max (df_time_of (sc_of df c)))).

(** The label that [users_mapping] gives to user [u] of [data]: the value of
    [u] in [map_uid], or [u] itself when it is no key. *)
Definition new_id {geometry} (data : list (@record geometry)) (u : Z) : Z :=
  let users := unique (user_id <$> data) in
  default u (dict (zip users (Z.of_nat <$> seq 0 (length users))) !! u).

(** The contacts of all windows, in the order of the table. *)
Definition table_contacts {geometry} (intersects : geometry → geometry → bool)
    (set_iter : list (Z * Z) → list (Z * Z))
    (df_split : list (list (@record geometry))) : list (Z * Z * Z * Z) :=
  p ← df_split;
  contact (intersections intersects p)
    <$> users_couples set_iter (intersections intersects p).

(** A value that a numpy 64-bit integer holds. *)
Definition int64 (z : Z) : Prop := - 2 ^ 63 ≤ z < 2 ^ 63.

(** The range in which the arithmetic of [dataframe_split] is exact: the
    timestamps and the bounds [timestamp + tw] are 64-bit integers, so no sum
    wraps, and the width and the span of the trace are below 2^53, so the
    difference does not wrap and the float64 quotient truncates to the integer
    quotient. *)
Definition exact_split {geometry} (data : list (@record geometry)) (tw : Z) : Prop :=
  - 2 ^ 53 < tw < 2 ^ 53 ∧
  Forall (λ r, int64 (sampletimestamp r) ∧ int64 (sampletimestamp r + tw) ∧
               Forall (λ r', sampletimestamp r' - sampletimestamp r < 2 ^ 53) data)
         data.

#[global] Instance exact_split_dec {geometry} (data : list (@record geometry)) tw :
  Decision (exact_split data tw).
Proof. unfold exact_split, int64. apply _. Defined.

(** User [u] is discovered before user [v] in the partition [p]. *)
Definition first_seen_before {geometry} (p : list (@record geometry)) (u v : Z)
    : Prop :=
  ∃ k l : nat, (k < l)%nat ∧
    unique (user_id <$> p) !! k = Some u ∧ unique (user_id <$> p) !! l = Some v.

(** The centres of two rows are at most twice the radius [dst / 100000]
    apart, as the specification words the overlap of two disks; exact on the
    float64 coordinates. *)
Definition centres_within (dst : Z) {geometry} (i j : @record geometry) : Prop :=
  match Shapely.scaled (latitude i), Shapely.scaled (longitude i),
        Shapely.scaled (latitude j), Shapely.scaled (longitude j),
        Shapely.scaled (PrimFloat.div (float_of_int dst) 100000%float) with
  | Some xi, Some yi, Some xj, Some yj, Some r =>
      (xi - xj) ^ 2 + (yi - yj) ^ 2 ≤ (r + r) ^ 2
  | _, _, _, _, _ => False
  end.

(** ** Scenarios

    Concrete traces for the examples.  Their geometry is an exact disk on the
    grid of 10^-5 degrees, the unit in which [add_short_range_communication_area]
    scales [dst]; the positions used are either the same point or far apart, away
    from the band where a buffered polygon and a disk differ. *)
Module Scenario.

Record disk := mk_disk { cx : Z; cy : Z; radius : Z }.

Definition disk_intersects (a b : disk) : bool :=
  bool_decide ((cx a - cx b) ^ 2 + (cy a - cy b) ^ 2 ≤ (radius a + radius b) ^ 2).

Definition degrees (n : Z) : float :=
  PrimFloat.div (PrimFloat.of_uint63 (Uint63.of_Z n)) 100000%float.

(** A row observed at [(lat, lon)] (in 10^-5 degrees) at time [ts], with
    accuracy 10 m and [dst = 500]. *)
Definition trace (uid lat lon ts : Z) : @record disk :=
  mk_record uid (degrees lat) (degrees lon) ts 10%float (mk_disk lat lon 500).

(** One user seen three times over 450 seconds. *)
Definition one_user : list (@record disk) :=
  [trace 0 4372000 1040000 1000; trace 0 4372000 1040000 1150;
   trace 0 4372000 1040000 1450].

(** Users 0 and 1 stay together; user 1 is seen exactly on the bound shared by
    the first two windows. *)
Definition two_users : list (@record disk) :=
  [trace 0 4372000 1040000 1000; trace 1 4372000 1040000 1150;
   trace 0 4372000 1040000 1200].

(** User 0 first meets user 2, then moves and meets user 1, all in one window;
    users 1 and 2 are 10 degrees apart. *)
Definition three_users : list (@record disk) :=
  [trace 0 5372000 1040000 1000; trace 1 4372000 1040000 1010;
   trace 2 5372000 1040000 1020; trace 0 4372000 1040000 1030].

(** A trace without geometry whose [sampletimestamp] column holds datetimes,
    in nanoseconds.  The third row is too inaccurate, the fourth has no
    accuracy. *)
Definition raw_row (uid lat lon ns : Z) (acc : float) : @record () :=
  mk_record uid (degrees lat) (degrees lon) ns acc ().

Definition raw_trace : list (@record ()) :=
  [raw_row 42 4372000 1040000 1606820000250000000 10%float;
   raw_row 7 4372000 1040000 1606820010999999999 20%float;
   raw_row 9 4372000 1040000 1606820020000000000 80%float;
   raw_row 8 4372000 1040000 1606820030000000000 nan;
   raw_row 42 5372000 1040000 1606820200000000000 50%float].

(** A trace that spans 2^54 - 1 seconds. *)
Definition long_trace : list (@record disk) :=
  [trace 0 4372000 1040000 0; trace 0 4372000 1040000 (2 ^ 54 - 1)].

(** Two rows 150 seconds apart, 101 seconds before the end of the 64-bit
    range. *)
Definition late_rows : list (@record disk) :=
  [trace 0 4372000 1040000 (2 ^ 63 - 251); trace 1 4372000 1040000 (2 ^ 63 - 101)].

(** Two users 0.009995 degrees apart, in the direction (3, 4): nearer than
    twice the radius 0.005 that [dst = 500] gives. *)
Definition near_rows : list (@record ()) :=
  (* (43.72, 10.4) and (43.725997, 10.407996) *)
  [mk_record 0 0x1.5dc28f5c28f5cp+5%float 0x1.4cccccccccccdp+3%float 1000
             10%float ();
   mk_record 1 0x1.5dced783dff3fp+5%float 0x1.4d0e4da09cc32p+3%float 1010
             10%float ()].

End Scenario.

(** ** Lemmas on the primitives *)

Section Series.
Implicit Types (s : list Z) (x m : Z).

Lemma foldl_min_spec s x :
  (foldl Z.min x s = x ∨ foldl Z.min x s ∈ s) ∧
  foldl Z.min x s ≤ x ∧ ∀ y, y ∈ s → foldl Z.min x s ≤ y.
Proof.
  revert x. induction s as [|a s IH]; intros x; simpl.
  - split; [by left|]. split; [lia|]. by intros y ?%elem_of_nil.
  - destruct (IH (x `min` a)) as (Hin & Hle & Hall). split; [|split].
    + destruct Hin as [->|Hin]; [|right; by right].
      destruct (Z.min_spec x a) as [[_ ->]|[_ ->]]; [by left|right; by left].
    + lia.
    + intros y [->|Hy]%elem_of_cons; [lia|by apply Hall].
Qed.

Lemma foldl_max_spec s x :
  (foldl Z.max x s = x ∨ foldl Z.max x s ∈ s) ∧
  x ≤ foldl Z.max x s ∧ ∀ y, y ∈ s → y ≤ foldl Z.max x s.
Proof.
  revert x. induction s as [|a s IH]; intros x; simpl.
  - split; [by left|]. split; [lia|]. by intros y ?%elem_of_nil.
  - destruct (IH (x `max` a)) as (Hin & Hle & Hall). split; [|split].
    + destruct Hin as [->|Hin]; [|right; by right].
      destruct (Z.max_spec x a) as [[_ ->]|[_ ->]]; [right; by left|by left].
    + lia.
    + intros y [->|Hy]%elem_of_cons; [lia|by apply Hall].
Qed.

Lemma series_min_Some s m :
  series_min s = Some m ↔ m ∈ s ∧ ∀ y, y ∈ s → m ≤ y.
Proof.
  destruct s as [|x s]; simpl.
  - split; [done|]. by intros [?%elem_of_nil _].
  - destruct (foldl_min_spec s x) as (Hin & Hle & Hall). split.
    + intros [= <-]. split.
      * destruct Hin as [->|?]; [by left|by right].
      * intros y [->|?]%elem_of_cons; auto.
    + intros [Hm Hlow]. f_equal. apply Z.le_antisymm.
      * apply elem_of_cons in Hm as [->|Hm]; auto.
      * apply Hlow. destruct Hin as [->|?]; [by left|by right].
Qed.

Lemma series_max_Some s m :
  series_max s = Some m ↔ m ∈ s ∧ ∀ y, y ∈ s → y ≤ m.
Proof.
  destruct s as [|x s]; simpl.
  - split; [done|]. by intros [?%elem_of_nil _].
  - destruct (foldl_max_spec s x) as (Hin & Hle & Hall). split.
    + intros [= <-]. split.
      * destruct Hin as [->|?]; [by left|by right].
      * intros y [->|?]%elem_of_cons; auto.
    + intros [Hm Hup]. f_equal. apply Z.le_antisymm.
      * apply Hup. destruct Hin as [->|?]; [by left|by right].
      * apply elem_of_cons in Hm as [->|Hm]; auto.
Qed.

Lemma series_min_is_Some s : s ≠ [] → is_Some (series_min s).
Proof. destruct s; [done|]. by eexists. Qed.

Lemma series_max_is_Some s : s ≠ [] → is_Some (series_max s).
Proof. destruct s; [done|]. by eexists. Qed.

Lemma series_min_le_max s a b :
  series_min s = Some a → series_max s = Some b → a ≤ b.
Proof.
  intros [Ha Hlow]%series_min_Some [Hb _]%series_max_Some. by apply Hlow.
Qed.

End Series.

(** ** Dataframe split *)

Section Split.
Context {geometry : Type}.
Implicit Types (data : list (@record geometry)) (tw : Z).

Lemma window_start_0 min_stp tw : window_start min_stp tw 0 = min_stp.
Proof. unfold window_start. lia. Qed.

Lemma window_start_S min_stp tw i :
  window_start (min_stp + tw) tw i = window_start min_stp tw (S i).
Proof. unfold window_start. lia. Qed.

Lemma split_loop_spec data tw n min_stp acc :
  split_loop data tw n min_stp acc = acc ++ (slice data min_stp tw <$> seq 0 n).
Proof.
  revert min_stp acc. induction n as [|n IH]; intros min_stp acc.
  - by rewrite app_nil_r.
  - cbn [split_loop]. rewrite IH, <-app_assoc. f_equal.
    cbn [seq fmap list_fmap app]. f_equal.
    + unfold slice. by rewrite window_start_0.
    + rewrite <-fmap_S_seq, <-list_fmap_compose. apply list_fmap_ext.
      intros _ i _. unfold slice. simpl. by rewrite window_start_S.
Qed.

(** What [dataframe_split] returns when no exception is raised. *)
Lemma dataframe_split_Ok data tw tmin tmax :
  series_min (sampletimestamp <$> data) = Some tmin →
  series_max (sampletimestamp <$> data) = Some tmax →
  tw ≠ 0 →
  dataframe_split data tw =
    Ok (slice data tmin tw <$> seq 0 (Z.to_nat ((tmax - tmin) `quot` tw + 1))).
Proof.
  intros Hmin Hmax Htw. unfold dataframe_split, window_count.
  rewrite Hmin, Hmax. rewrite decide_False by done. simpl.
  by rewrite split_loop_spec.
Qed.

Lemma window_count_pos tmin tmax tw :
  tmin ≤ tmax → 0 < tw →
  (tmax - tmin) `quot` tw + 1 = (tmax - tmin) `div` tw + 1 ∧
  0 < (tmax - tmin) `div` tw + 1.
Proof.
  intros Hle Htw. rewrite Z.quot_div_nonneg by lia. split; [done|].
  pose proof (Z.div_pos (tmax - tmin) tw). lia.
Qed.

Lemma slice_lookup data tmin tw n i :
  (i < n)%nat →
  (slice data tmin tw <$> seq 0 n) !! i = Some (slice data tmin tw i).
Proof.
  intros Hi. rewrite list_lookup_fmap, lookup_seq_lt by done. done.
Qed.

End Split.

(** ** The float quotient of two integers

    [binary_normalize], [SFdiv] and [binary_round_aux] are the Standard
    Library's specification of float64; the primitive operations satisfy it.
    An integer below 2^53 is a float, and the quotient of two such floats,
    rounded to nearest, never reaches the next integer: truncated, it is the
    integer quotient. *)
Section FloatQuotient.
Import SpecFloat.


Lemma digits2_pos_bounds p :
  2 ^ (Z.pos (digits2_pos p) - 1) ≤ Z.pos p < 2 ^ Z.pos (digits2_pos p).
Proof.
  induction p as [p IH|p IH|]; cbn [digits2_pos]; [| |done].
  - rewrite Pos2Z.inj_succ, Pos2Z.inj_xI.
    replace (Z.succ (Z.pos (digits2_pos p)) - 1) with (Z.succ (Z.pos (digits2_pos p) - 1)) by lia.
    rewrite !Z.pow_succ_r by lia.
    generalize dependent (2 ^ (Z.pos (digits2_pos p) - 1)).
    generalize (2 ^ Z.pos (digits2_pos p)). intros; lia.
  - rewrite Pos2Z.inj_succ. change (Z.pos p~0) with (2 * Z.pos p).
    replace (Z.succ (Z.pos (digits2_pos p)) - 1) with (Z.succ (Z.pos (digits2_pos p) - 1)) by lia.
    rewrite !Z.pow_succ_r by lia.
    generalize dependent (2 ^ (Z.pos (digits2_pos p) - 1)).
    generalize (2 ^ Z.pos (digits2_pos p)). intros; lia.
Qed.

Lemma digits2_pos_unique p k :
  2 ^ (k - 1) ≤ Z.pos p < 2 ^ k → Z.pos (digits2_pos p) = k.
Proof.
  intros [Hlo Hhi]. pose proof (digits2_pos_bounds p) as [Hlo' Hhi'].
  destruct (Z.lt_trichotomy (Z.pos (digits2_pos p)) k) as [Hlt|[Heq|Hgt]]; [|done|].
  - assert (2 ^ Z.pos (digits2_pos p) ≤ 2 ^ (k - 1))
      by (apply Z.pow_le_mono_r; lia). lia.
  - assert (0 ≤ k).
    { destruct (decide (0 ≤ k)); [done|]. rewrite Z.pow_neg_r in Hhi by lia. lia. }
    assert (2 ^ k ≤ 2 ^ (Z.pos (digits2_pos p) - 1))
      by (apply Z.pow_le_mono_r; lia). lia.
Qed.

Lemma iter_xO p d : Z.pos (Pos.iter xO p d) = Z.pos p * 2 ^ Z.pos d.
Proof.
  induction d as [|d IH] using Pos.peano_ind.
  - simpl. lia.
  - rewrite Pos.iter_succ, Pos2Z.inj_succ, Z.pow_succ_r by lia.
    change (Z.pos (Pos.iter xO p d)~0) with (2 * Z.pos (Pos.iter xO p d)).
    rewrite IH. lia.
Qed.

(** Rounding a mantissa of 53 digits that is exact changes nothing. *)
Lemma binary_round_aux_exact s m e :
  2 ^ 52 ≤ Z.pos m < 2 ^ 53 → -1074 ≤ e ≤ 971 →
  binary_round_aux prec emax s (Z.pos m) e loc_Exact = S754_finite s m e.
Proof.
  intros Hm He. unfold binary_round_aux, shr_fexp. cbn [shr_record_of_loc Zdigits2].
  rewrite (digits2_pos_unique m 53) by done.
  replace (fexp prec emax (53 + e) - e) with 0
    by (unfold fexp, SpecFloat.emin, prec, emax; lia).
  cbn [shr shr_m loc_of_shr_record round_nearest_even Zdigits2].
  rewrite (digits2_pos_unique m 53) by done.
  replace (fexp prec emax (53 + e) - e) with 0
    by (unfold fexp, SpecFloat.emin, prec, emax; lia).
  cbn [shr shr_m].
  assert ((e <=? emax - prec) = true) as -> by (apply Z.leb_le; unfold prec, emax; lia).
  done.
Qed.

(** The float of an integer below 2^53 is the integer, its mantissa shifted
    left to 53 digits. *)
Lemma binary_round_int s p :
  Z.pos p < 2 ^ 53 →
  ∃ m e, binary_round prec emax s p 0 = S754_finite s m e ∧
         Z.pos m = Z.pos p * 2 ^ (- e) ∧ -52 ≤ e ≤ 0 ∧ 2 ^ 52 ≤ Z.pos m < 2 ^ 53.
Proof.
  intros Hp. pose proof (digits2_pos_bounds p) as [Hlo Hhi].
  set (d := Z.pos (digits2_pos p)) in *.
  assert (1 ≤ d) by (unfold d; lia).
  assert (d ≤ 53).
  { destruct (decide (d ≤ 53)); [done|].
    assert (2 ^ 53 ≤ 2 ^ (d - 1)) by (apply Z.pow_le_mono_r; lia). lia. }
  unfold binary_round, shl_align. fold d.
  assert (fexp prec emax (d + 0) = d - 53) as ->
    by (unfold fexp, SpecFloat.emin, prec, emax; lia).
  rewrite Z.sub_0_r.
  destruct (decide (d = 53)) as [Hd|Hd].
  - rewrite Hd. change (53 - 53) with 0. cbn match.
    exists p, 0. rewrite binary_round_aux_exact by (rewrite Hd in *; lia).
    rewrite Hd in *. split; [done|]. split; [simpl; lia|]. lia.
  - destruct (d - 53) as [|k|k] eqn:Hk; [lia|lia|].
    exists (Pos.iter xO p k), (Z.neg k).
    assert (Z.pos (Pos.iter xO p k) = Z.pos p * 2 ^ (53 - d)) as Hm.
    { rewrite iter_xO. f_equal. f_equal. lia. }
    assert (2 ^ (d - 1) * 2 ^ (53 - d) = 2 ^ 52) as H52
      by (rewrite <-Z.pow_add_r by lia; f_equal; lia).
    assert (2 ^ d * 2 ^ (53 - d) = 2 ^ 53) as H53
      by (rewrite <-Z.pow_add_r by lia; f_equal; lia).
    assert (0 < 2 ^ (53 - d)) by (apply Z.pow_pos_nonneg; lia).
    assert (2 ^ 52 ≤ Z.pos (Pos.iter xO p k) < 2 ^ 53) by (rewrite Hm; nia).
    rewrite binary_round_aux_exact by lia.
    replace (- Z.neg k) with (53 - d) by lia.
    split; [done|]. split; [done|]. split; [clear -Hk H H0; lia|done].
Qed.

Lemma fexp_digits (d e : Z) :
  -1074 ≤ d + e - 53 → fexp prec emax (d + e) - e = d - 53.
Proof. unfold fexp, SpecFloat.emin, prec, emax. lia. Qed.

Lemma loc_of_shr_record_of_loc m l :
  loc_of_shr_record (shr_record_of_loc m l) = l.
Proof. by destruct l as [|[]]. Qed.

Lemma shr_m_record_of_loc m l : shr_m (shr_record_of_loc m l) = m.
Proof. by destruct l as [|[]]. Qed.

(** Rounding to nearest moves up by at most one, and only from the middle or
    above. *)
Lemma round_nearest_even_cases m l :
  round_nearest_even m l = m ∨
  (round_nearest_even m l = m + 1 ∧ (l = loc_Inexact Eq ∨ l = loc_Inexact Gt)).
Proof.
  destruct l as [|[]]; simpl; auto. destruct (Z.even m); auto.
Qed.

(** The location of a quotient: the middle or above only when twice the
    remainder reaches the divisor. *)
Lemma new_location_upper d r :
  0 < d → 0 ≤ r < d →
  new_location d r = loc_Inexact Eq ∨ new_location d r = loc_Inexact Gt →
  d ≤ 2 * r.
Proof.
  intros Hd Hr. unfold new_location, new_location_even, new_location_odd.
  destruct (Z.even d); destruct (Z.eqb_spec r 0) as [->|Hr0];
    try (intros [?|?]; discriminate).
  - destruct (Z.compare_spec (2 * r) d); intros [?|?]; try discriminate; lia.
  - destruct (Z.compare_spec (2 * r + 1) d); intros [?|?]; try discriminate; lia.
Qed.

(** The second shift of [binary_round_aux]: a rounded mantissa that reached
    2^53 is halved. *)
Lemma shr_fexp_rounded Q e :
  2 ^ 52 ≤ Q ≤ 2 ^ 53 → -1074 ≤ e →
  ∃ M F, shr_fexp prec emax Q e loc_Exact = (Build_shr_record (Z.pos M) false false, F) ∧
         (F = e ∨ F = e + 1) ∧ Z.pos M * 2 ^ (F - e) = Q ∧ 2 ^ 52 ≤ Z.pos M < 2 ^ 53.
Proof.
  intros HQ He. destruct Q as [|Q|Q]; [lia| |lia].
  unfold shr_fexp. cbn [Zdigits2 shr_record_of_loc].
  destruct (decide (Z.pos Q = 2 ^ 53)) as [HQ53|HQ53].
  - rewrite (digits2_pos_unique Q 54) by lia.
    rewrite fexp_digits by lia. change (54 - 53) with 1. cbn [shr iter_pos].
    injection HQ53 as ->. cbn [shr_1].
    eexists _, _. split; [reflexivity|]. split; [by right|].
    replace (e + 1 - e) with 1 by lia. split; [done|lia].
  - rewrite (digits2_pos_unique Q 53) by lia.
    rewrite fexp_digits by lia. change (53 - 53) with 0. cbn [shr].
    exists Q, e. split; [done|]. split; [by left|].
    rewrite Z.sub_diag. lia.
Qed.

(** The end of [binary_round_aux], from the rounded mantissa on. *)
Lemma binary_round_aux_finish s Q e :
  2 ^ 52 ≤ Q ≤ 2 ^ 53 → -1074 ≤ e ≤ 900 →
  ∃ M F,
    (let '(mrs, e'') := shr_fexp prec emax Q e loc_Exact in
     match shr_m mrs with
     | 0 => S754_zero s
     | Z.pos m => if e'' <=? emax - prec then S754_finite s m e''
                  else S754_infinity s
     | Z.neg _ => S754_nan
     end) = S754_finite s M F ∧
    (F = e ∨ F = e + 1) ∧ Z.pos M * 2 ^ (F - e) = Q.
Proof.
  intros HQ He.
  destruct (shr_fexp_rounded Q e) as (M & F & -> & HF & HM & _); [done|lia|].
  exists M, F. cbn [shr_m].
  assert ((F <=? emax - prec) = true) as ->
    by (apply Z.leb_le; unfold prec, emax; lia).
  done.
Qed.

(** Rounding a quotient of 53 or 54 digits: the mantissa is cut to 53 digits
    and moves up by at most one, from the middle or above only. *)
Lemma binary_round_aux_quotient s q E l :
  2 ^ 52 ≤ q < 2 ^ 54 → -1074 ≤ E ≤ 800 →
  ∃ M F Q j,
    binary_round_aux prec emax s q E l = S754_finite s M F ∧
    (j = 0 ∧ q < 2 ^ 53 ∨ j = 1 ∧ 2 ^ 53 ≤ q) ∧
    (Q = q `div` 2 ^ j ∨
     Q = q `div` 2 ^ j + 1 ∧
     (j = 0 ∧ (l = loc_Inexact Eq ∨ l = loc_Inexact Gt) ∨ j = 1 ∧ Z.odd q = true)) ∧
    (F = E + j ∨ F = E + j + 1) ∧ Z.pos M * 2 ^ (F - (E + j)) = Q.
Proof.
  intros Hq HE. destruct q as [|q|q]; [lia| |lia].
  unfold binary_round_aux.
  destruct (decide (Z.pos q < 2 ^ 53)) as [Hlt|Hge].
  - assert (shr_fexp prec emax (Z.pos q) E l
            = (shr_record_of_loc (Z.pos q) l, E)) as ->.
    { unfold shr_fexp. cbn [Zdigits2]. rewrite (digits2_pos_unique q 53) by lia.
      rewrite fexp_digits by lia. done. }
    rewrite shr_m_record_of_loc, loc_of_shr_record_of_loc.
    destruct (round_nearest_even_cases (Z.pos q) l) as [HQ|[HQ Hl]].
    + destruct (binary_round_aux_finish s (round_nearest_even (Z.pos q) l) E)
        as (M & F & -> & HF & HM); [lia|lia|].
      exists M, F, (Z.pos q), 0. rewrite Z.add_0_r, Z.pow_0_r, Z.div_1_r.
      split; [done|]. split; [auto|]. split; [auto|]. split; [lia|]. by rewrite <-HQ.
    + destruct (binary_round_aux_finish s (round_nearest_even (Z.pos q) l) E)
        as (M & F & -> & HF & HM); [lia|lia|].
      exists M, F, (Z.pos q + 1), 0. rewrite Z.add_0_r, Z.pow_0_r, Z.div_1_r.
      split; [done|]. split; [auto|]. split; [auto|]. split; [lia|]. by rewrite <-HQ.
  - assert (shr_fexp prec emax (Z.pos q) E l
            = (shr_1 (shr_record_of_loc (Z.pos q) l), E + 1)) as ->.
    { unfold shr_fexp. cbn [Zdigits2]. rewrite (digits2_pos_unique q 54) by lia.
      rewrite fexp_digits by lia. done. }
    destruct q as [q'|q'|]; [| |lia].
    + assert (Z.pos q'~1 `div` 2 = Z.pos q') as Hhalf
        by (symmetry; apply (Z.div_unique _ 2 _ 1); lia).
      assert (shr_m (shr_1 (shr_record_of_loc (Z.pos q'~1) l)) = Z.pos q') as ->
        by (by destruct l as [|[]]).
      destruct (round_nearest_even_cases (Z.pos q')
                  (loc_of_shr_record (shr_1 (shr_record_of_loc (Z.pos q'~1) l))))
        as [HQ|[HQ _]].
      * destruct (binary_round_aux_finish s
                    (round_nearest_even (Z.pos q')
                       (loc_of_shr_record (shr_1 (shr_record_of_loc (Z.pos q'~1) l))))
                    (E + 1)) as (M & F & -> & HF & HM); [lia|lia|].
        exists M, F, (Z.pos q'), 1. change (2 ^ 1) with 2. rewrite Hhalf.
        split; [done|]. split; [right; lia|]. split; [auto|]. split; [lia|].
        by rewrite <-HQ.
      * destruct (binary_round_aux_finish s
                    (round_nearest_even (Z.pos q')
                       (loc_of_shr_record (shr_1 (shr_record_of_loc (Z.pos q'~1) l))))
                    (E + 1)) as (M & F & -> & HF & HM); [lia|lia|].
        exists M, F, (Z.pos q' + 1), 1. change (2 ^ 1) with 2. rewrite Hhalf.
        split; [done|]. split; [right; lia|]. split; [right; auto|]. split; [lia|].
        by rewrite <-HQ.
    + assert (Z.pos q'~0 `div` 2 = Z.pos q') as Hhalf
        by (symmetry; apply (Z.div_unique _ 2 _ 0); lia).
      assert (shr_m (shr_1 (shr_record_of_loc (Z.pos q'~0) l)) = Z.pos q') as ->
        by (by destruct l as [|[]]).
      assert (round_nearest_even (Z.pos q')
                (loc_of_shr_record (shr_1 (shr_record_of_loc (Z.pos q'~0) l)))
              = Z.pos q') as HQ by (by destruct l as [|[]]).
      destruct (binary_round_aux_finish s
                  (round_nearest_even (Z.pos q')
                     (loc_of_shr_record (shr_1 (shr_record_of_loc (Z.pos q'~0) l))))
                  (E + 1)) as (M & F & -> & HF & HM); [lia|lia|].
      exists M, F, (Z.pos q'), 1. change (2 ^ 1) with 2. rewrite Hhalf.
      split; [done|]. split; [right; lia|]. split; [auto|]. split; [lia|].
      by rewrite <-HQ.
Qed.

(** The quotient of two floats with mantissas of 53 digits. *)
Lemma SFdiv_normal s1 m1 e1 s2 m2 e2 :
  2 ^ 52 ≤ Z.pos m1 < 2 ^ 53 → 2 ^ 52 ≤ Z.pos m2 < 2 ^ 53 →
  -52 ≤ e1 ≤ 0 → -52 ≤ e2 ≤ 0 →
  ∃ M F Q j,
    SFdiv prec emax (S754_finite s1 m1 e1) (S754_finite s2 m2 e2)
      = S754_finite (xorb s1 s2) M F ∧
    (j = 0 ∨ j = 1) ∧
    2 ^ 52 ≤ (Z.pos m1 * 2 ^ 53) `div` (Z.pos m2 * 2 ^ j) ∧
    (Q = (Z.pos m1 * 2 ^ 53) `div` (Z.pos m2 * 2 ^ j) ∨
     Q = (Z.pos m1 * 2 ^ 53) `div` (Z.pos m2 * 2 ^ j) + 1 ∧
     Z.pos m2 * 2 ^ j ≤ 2 * ((Z.pos m1 * 2 ^ 53) `mod` (Z.pos m2 * 2 ^ j))) ∧
    (F = e1 - e2 - 53 + j ∨ F = e1 - e2 - 53 + j + 1) ∧
    Z.pos M * 2 ^ (F - (e1 - e2 - 53 + j)) = Q.
Proof.
  intros Hm1 Hm2 He1 He2. cbn [SFdiv]. unfold SFdiv_core_binary. cbn [Zdigits2].
  rewrite (digits2_pos_unique m1 53), (digits2_pos_unique m2 53) by done.
  assert (Z.min (fexp prec emax (53 + e1 - (53 + e2))) (e1 - e2) = e1 - e2 - 53)
    as -> by (unfold fexp, SpecFloat.emin, prec, emax; lia).
  replace (e1 - e2 - (e1 - e2 - 53)) with 53 by lia. cbn match.
  rewrite Z.shiftl_mul_pow2 by lia.
  set (N := Z.pos m1 * 2 ^ 53).
  pose proof (Z_div_mod N (Z.pos m2) ltac:(lia)) as Hqr.
  destruct (Z.div_eucl N (Z.pos m2)) as [q r]. destruct Hqr as [HN Hr].
  assert (q = N `div` Z.pos m2) as Hq by (apply (Z.div_unique_pos _ _ _ r); lia).
  assert (r = N `mod` Z.pos m2) as Hr' by (apply (Z.mod_unique_pos _ _ q); lia).
  assert (2 ^ 52 ≤ q < 2 ^ 54) as Hqb by (unfold N in HN; nia).
  destruct (binary_round_aux_quotient (xorb s1 s2) q (e1 - e2 - 53)
              (new_location (Z.pos m2) r))
    as (M & F & Q & j & -> & Hj & HQ & HF & HM); [done|lia|].
  exists M, F, Q, j. split; [done|].
  destruct Hj as [[-> Hlt]|[-> Hge]].
  - rewrite Z.pow_0_r, Z.mul_1_r, Z.div_1_r in *. rewrite <-Hq, <-Hr'.
    split; [auto|]. split; [lia|]. split; [|done].
    destruct HQ as [HQ|[HQ [[_ Hup]|[? _]]]]; [by left| |lia].
    right. split; [done|]. apply new_location_upper; [lia|done|done].
  - change (2 ^ 1) with 2 in *.
    rewrite <-Z.div_div, Z.rem_mul_r, <-Hq, <-Hr' by lia.
    split; [auto|]. split; [apply Z.div_le_lower_bound; lia|]. split; [|done].
    destruct HQ as [HQ|[HQ [[? _]|[_ Hodd]]]]; [by left|lia|].
    right. split; [done|]. rewrite Zmod_odd, Hodd. lia.
Qed.

(** The arithmetic of the matter.  [A = a * K] is the dividend scaled by a
    power of two, [Q] its quotient by [b] rounded to nearest; as long as
    [a < 2^53] with a quotient of at least 52 digits, the rounding does not
    reach the next multiple of [K]. *)
Lemma rounded_quotient_floor a b K Q :
  0 < a < 2 ^ 53 → 0 < b → 0 < K →
  2 ^ 52 ≤ (a * K) `div` b →
  (Q = (a * K) `div` b ∨
   Q = (a * K) `div` b + 1 ∧ b ≤ 2 * ((a * K) `mod` b)) →
  Q `div` K = a `div` b.
Proof.
  intros Ha Hb HK H52 HQ.
  pose proof (Z.div_mod a b ltac:(lia)) as Hab.
  pose proof (Z.mod_pos_bound a b Hb) as Hrab.
  pose proof (Z.div_mod (a * K) b ltac:(lia)) as HA.
  pose proof (Z.mod_pos_bound (a * K) b Hb) as HrA.
  set (n := a `div` b) in *. set (ra := a `mod` b) in *.
  set (qf := (a * K) `div` b) in *. set (r := (a * K) `mod` b) in *.
  assert (n * K ≤ qf) as Hlow by nia.
  assert (qf < (n + 1) * K) as Hup by nia.
  assert (n * K ≤ Q < (n + 1) * K) as [HQ1 HQ2].
  { destruct HQ as [->|[-> Hhalf]]; [lia|]. split; [lia|].
    destruct (decide (qf + 1 < (n + 1) * K)) as [|Hreach]; [done|].
    assert (qf = (n + 1) * K - 1) as Hqf by lia.
    assert (2 * K ≤ b) by nia.
    assert (2 ^ 53 * K ≤ a * K) by nia. nia. }
  symmetry. apply (Z.div_unique_pos _ _ _ (Q - n * K)); lia.
Qed.

Lemma quotient_of_floats a b m1 e1 m2 e2 M F Q j :
  0 < a < 2 ^ 53 → 0 < b < 2 ^ 53 →
  Z.pos m1 = a * 2 ^ (- e1) → Z.pos m2 = b * 2 ^ (- e2) →
  -52 ≤ e1 ≤ 0 → -52 ≤ e2 ≤ 0 → j = 0 ∨ j = 1 →
  2 ^ 52 ≤ (Z.pos m1 * 2 ^ 53) `div` (Z.pos m2 * 2 ^ j) →
  (Q = (Z.pos m1 * 2 ^ 53) `div` (Z.pos m2 * 2 ^ j) ∨
   Q = (Z.pos m1 * 2 ^ 53) `div` (Z.pos m2 * 2 ^ j) + 1 ∧
   Z.pos m2 * 2 ^ j ≤ 2 * ((Z.pos m1 * 2 ^ 53) `mod` (Z.pos m2 * 2 ^ j))) →
  F = e1 - e2 - 53 + j ∨ F = e1 - e2 - 53 + j + 1 →
  Z.pos M * 2 ^ (F - (e1 - e2 - 53 + j)) = Q →
  (if decide (0 ≤ F) then Z.pos M * 2 ^ F else Z.pos M `div` 2 ^ (- F))
    = a `div` b.
Proof.
  intros Ha Hb -> -> He1 He2 Hj H52 HQ HF HM.
  set (k := 53 - e1 + e2 - j). set (c := 2 ^ (j - e2)).
  assert (0 < c) as Hc by (apply Z.pow_pos_nonneg; lia).
  assert (b * 2 ^ (- e2) * 2 ^ j = b * c) as HD.
  { unfold c. rewrite <-Z.mul_assoc, <-Z.pow_add_r by lia. do 2 f_equal. lia. }
  assert (a * 2 ^ (- e1) * 2 ^ 53 = a * 2 ^ (53 - e1)) as HN.
  { rewrite <-Z.mul_assoc, <-Z.pow_add_r by lia. do 2 f_equal. lia. }
  rewrite HD, HN in *.
  assert (0 ≤ k) as Hk.
  { pose proof (Z.mul_div_le (a * 2 ^ (53 - e1)) (b * c) ltac:(lia)) as Hle.
    assert (0 < 2 ^ (53 - e1)) by (apply Z.pow_pos_nonneg; lia).
    assert (2 ^ 52 * c < 2 ^ 53 * 2 ^ (53 - e1)) as Hlt by nia.
    unfold c in Hlt. rewrite <-!Z.pow_add_r in Hlt by lia.
    apply Z.pow_lt_mono_r_iff in Hlt; lia. }
  assert (2 ^ (53 - e1) = 2 ^ k * c) as Hsplit.
  { unfold c. rewrite <-Z.pow_add_r by lia. f_equal. lia. }
  assert (0 < 2 ^ k) as HK by (apply Z.pow_pos_nonneg; lia).
  rewrite Hsplit, Z.mul_assoc in *.
  rewrite Z.div_mul_cancel_r in * by lia.
  rewrite Z.mul_mod_distr_r in HQ by lia.
  assert (Q `div` 2 ^ k = a `div` b) as <-.
  { apply rounded_quotient_floor; [done|lia|done|done|].
    destruct HQ as [HQ|[HQ Hhalf]]; [by left|]. right. split; [done|]. nia. }
  replace (e1 - e2 - 53 + j) with (- k) in * by lia.
  set (t := F - - k) in *.
  assert (0 ≤ t ≤ 1) as Ht by lia.
  case_decide as HF0.
  - replace F with (t - k) in * by lia. rewrite <-HM.
    replace (2 ^ t) with (2 ^ (t - k) * 2 ^ k)
      by (rewrite <-Z.pow_add_r by lia; f_equal; lia).
    rewrite Z.mul_assoc, Z.div_mul by lia. done.
  - rewrite <-HM. replace (2 ^ k) with (2 ^ (- F) * 2 ^ t)
      by (rewrite <-Z.pow_add_r by lia; f_equal; lia).
    assert (0 < 2 ^ t) by (apply Z.pow_pos_nonneg; lia).
    rewrite Z.div_mul_cancel_r by lia. done.
Qed.

Lemma valid_binary_normal s m e :
  2 ^ 52 ≤ Z.pos m < 2 ^ 53 → -1074 ≤ e ≤ 971 →
  valid_binary prec emax (S754_finite s m e) = true.
Proof.
  intros Hm He. cbn [valid_binary]. unfold bounded, canonical_mantissa.
  rewrite (digits2_pos_unique m 53) by done.
  apply andb_true_intro. split.
  - apply Z.eqb_eq. unfold fexp, SpecFloat.emin, prec, emax. lia.
  - apply Z.leb_le. unfold prec, emax. lia.
Qed.

Lemma Prim2SF_float_of_int z :
  z ≠ 0 → - 2 ^ 53 < z < 2 ^ 53 →
  ∃ m e, Prim2SF (float_of_int z) = S754_finite (bool_decide (z < 0)) m e ∧
         Z.pos m = Z.abs z * 2 ^ (- e) ∧ -52 ≤ e ≤ 0 ∧
         2 ^ 52 ≤ Z.pos m < 2 ^ 53.
Proof.
  intros Hz0 Hz. unfold float_of_int.
  destruct z as [|p|p]; [done| |]; cbn [binary_normalize].
  - destruct (binary_round_int false p) as (m & e & -> & Hm & He & Hb); [lia|].
    exists m, e. rewrite FloatAxioms.Prim2SF_SF2Prim
      by (apply valid_binary_normal; lia). done.
  - destruct (binary_round_int true p) as (m & e & -> & Hm & He & Hb); [lia|].
    exists m, e. rewrite FloatAxioms.Prim2SF_SF2Prim
      by (apply valid_binary_normal; lia). done.
Qed.

(** The float quotient of two integers below 2^53, truncated, is their
    integer quotient. *)
Theorem int_div_float_of_int a b :
  0 ≤ a < 2 ^ 53 → b ≠ 0 → - 2 ^ 53 < b < 2 ^ 53 →
  Int64.int (PrimFloat.div (float_of_int a) (float_of_int b)) = Ok (a `quot` b).
Proof.
  intros Ha Hb0 Hb. unfold Int64.int.
  rewrite FloatAxioms.div_spec. unfold FloatAxioms.SF64div.
  destruct (Prim2SF_float_of_int b) as (m2 & e2 & -> & Hm2 & He2 & Hb2); [done..|].
  destruct (decide (a = 0)) as [->|Ha0].
  - unfold float_of_int. cbn [binary_normalize].
    rewrite FloatAxioms.Prim2SF_SF2Prim by done. cbn [SFdiv].
    by rewrite Z.quot_0_l.
  - destruct (Prim2SF_float_of_int a) as (m1 & e1 & -> & Hm1 & He1 & Hb1);
      [done|lia|].
    rewrite bool_decide_false by lia. rewrite Z.abs_eq in Hm1 by lia.
    destruct (SFdiv_normal false m1 e1 (bool_decide (b < 0)) m2 e2)
      as (M & F & Q & j & -> & Hj & H52 & HQ & HF & HM); [done..|].
    cbn [xorb]. f_equal.
    pose proof (quotient_of_floats a (Z.abs b) m1 e1 m2 e2 M F Q j
                  ltac:(lia) ltac:(lia) Hm1 Hm2 He1 He2 Hj H52 HQ HF HM) as ->.
    case_bool_decide as Hneg.
    + rewrite Z.abs_neq by lia.
      rewrite <-(Z.quot_div_nonneg a (- b)) by lia.
      rewrite Z.quot_opp_r by lia. lia.
    + rewrite Z.abs_eq by lia. by rewrite Z.quot_div_nonneg by lia.
Qed.

Lemma Prim2SF_float_of_int_0 : Prim2SF (float_of_int 0) = S754_zero false.
Proof.
  unfold float_of_int. cbn [binary_normalize].
  by rewrite FloatAxioms.Prim2SF_SF2Prim.
Qed.

End FloatQuotient.

(** In the range [exact_split] the window count is exact and no sum of the
    loop wraps: the split of the machine is the split over [Z]. *)
Section MachineSplit.
Context {geometry : Type}.
Implicit Types (data : list (@record geometry)) (tw : Z).

Lemma int64_wrap_id z : int64 z → Int64.wrap z = z.
Proof.
  unfold int64, Int64.wrap. intros Hz. rewrite Z.mod_small; lia.
Qed.

(** In the range the window count of the machine is the integer one, errors
    included. *)
Lemma int64_window_count_exact tmin tmax tw :
  0 ≤ tmax - tmin < 2 ^ 53 → - 2 ^ 53 < tw < 2 ^ 53 →
  Int64.window_count tmin tmax tw = window_count tmin tmax tw.
Proof.
  intros Hspan Htw. unfold Int64.window_count, window_count.
  rewrite int64_wrap_id by (unfold int64; lia).
  destruct (decide (tw = 0)) as [->|Htw0].
  - unfold Int64.int. rewrite FloatAxioms.div_spec. unfold FloatAxioms.SF64div.
    rewrite Prim2SF_float_of_int_0.
    destruct (decide (tmax - tmin = 0)) as [->|Hne].
    + by rewrite Prim2SF_float_of_int_0.
    + destruct (Prim2SF_float_of_int (tmax - tmin)) as (m & e & -> & _);
        [done|lia|]. done.
  - by rewrite int_div_float_of_int.
Qed.

Lemma int64_split_loop_exact data tw n min_stp acc :
  (∀ i, (i < n)%nat → int64 (window_start min_stp tw (S i))) →
  Int64.split_loop data tw n min_stp acc = split_loop data tw n min_stp acc.
Proof.
  revert min_stp acc. induction n as [|n IH]; intros min_stp acc Hrange; [done|].
  cbn [Int64.split_loop split_loop].
  assert (Int64.wrap (min_stp + tw) = min_stp + tw) as ->.
  { apply int64_wrap_id. specialize (Hrange 0%nat ltac:(lia)).
    unfold window_start in Hrange. by replace (min_stp + tw)
      with (min_stp + Z.of_nat 1 * tw) by lia. }
  rewrite IH; [reflexivity|]. intros i Hi. rewrite window_start_S. apply Hrange. lia.
Qed.

Theorem int64_split_exact data tw :
  exact_split data tw →
  Int64.dataframe_split data tw = dataframe_split data tw.
Proof.
  intros [Htw Hdata]. unfold Int64.dataframe_split, dataframe_split.
  destruct (series_min (sampletimestamp <$> data)) as [tmin|] eqn:Hmin; [|done].
  destruct (series_max (sampletimestamp <$> data)) as [tmax|] eqn:Hmax; [|done].
  pose proof (series_min_le_max _ _ _ Hmin Hmax) as Hle.
  apply series_min_Some in Hmin as [(rmin & -> & Hrmin)%list_elem_of_fmap _].
  apply series_max_Some in Hmax as [(rmax & -> & Hrmax)%list_elem_of_fmap _].
  rewrite Forall_forall in Hdata.
  destruct (Hdata _ Hrmin) as (Hmin1 & Hmin2 & Hspan).
  destruct (Hdata _ Hrmax) as (Hmax1 & Hmax2 & _).
  rewrite Forall_forall in Hspan. specialize (Hspan _ Hrmax).
  rewrite int64_window_count_exact by lia. unfold window_count.
  destruct (decide (tw = 0)) as [|Hne]; [by case_decide|]. simpl. f_equal.
  apply int64_split_loop_exact. intros i Hi. unfold int64, window_start in *.
  destruct (decide (0 < tw)) as [Hpos|Hneg].
  - rewrite Z.quot_div_nonneg in Hi by lia.
    pose proof (Z.div_mod (sampletimestamp rmax - sampletimestamp rmin) tw Hne).
    pose proof (Z.mod_pos_bound (sampletimestamp rmax - sampletimestamp rmin) tw Hpos).
    pose proof (Z.div_pos (sampletimestamp rmax - sampletimestamp rmin) tw).
    nia.
  - assert ((sampletimestamp rmax - sampletimestamp rmin) `quot` tw ≤ 0) as Hq.
    { replace tw with (- - tw) by lia. rewrite Z.quot_opp_r by lia.
      pose proof (Z.quot_pos (sampletimestamp rmax - sampletimestamp rmin) (- tw)).
      lia. }
    assert (i = 0%nat) as -> by lia. lia.
Qed.

End MachineSplit.

Section SplitClaims.
Context {geometry : Type}.
Implicit Types (data : list (@record geometry)) (tw : Z).

(** C3.  For a non-empty record set with minimum timestamp [tmin] and maximum
    [tmax], and a width [tw > 0], in the range where the code's int64 sums and
    float quotient are exact, [dataframe_split] returns exactly
    floor((tmax - tmin) / tw) + 1 partitions; the [i]-th one holds the rows of
    the window that starts at [tmin + i * tw], so the starts advance by [tw]
    from [tmin] and increase strictly; and every instant of [[tmin, tmax]] lies
    within the bounds of one of the windows. *)
Theorem dataframe_split_windows data tw tmin tmax :
  data ≠ [] →
  series_min (sampletimestamp <$> data) = Some tmin →
  series_max (sampletimestamp <$> data) = Some tmax →
  0 < tw →
  exact_split data tw →
  ∃ df_split,
    dataframe_split data tw = Ok df_split ∧
    Z.of_nat (length df_split) = (tmax - tmin) `div` tw + 1 ∧
    (∀ i, (i < length df_split)%nat →
       df_split !! i = Some (filter (in_window (window_start tmin tw i) tw) data)) ∧
    window_start tmin tw 0 = tmin ∧
    (∀ i, window_start tmin tw (S i) = window_start tmin tw i + tw) ∧
    (∀ i j, (i < j)%nat → window_start tmin tw i < window_start tmin tw j) ∧
    (∀ t, tmin ≤ t ≤ tmax →
       ∃ i, (i < length df_split)%nat ∧
            window_start tmin tw i ≤ t ≤ window_start tmin tw i + tw).
Proof.
  intros _ Hmin Hmax Htw _.
  pose proof (series_min_le_max _ _ _ Hmin Hmax) as Hle.
  destruct (window_count_pos tmin tmax tw Hle Htw) as [Hq Hpos].
  eexists. split; [apply (dataframe_split_Ok data tw tmin tmax); auto; lia|].
  rewrite length_fmap, length_seq, Hq.
  split; [lia|]. split; [|split; [|split; [|split]]].
  - intros i Hi. by apply slice_lookup.
  - apply window_start_0.
  - intros i. unfold window_start. lia.
  - intros i j Hij. unfold window_start. nia.
  - intros t [Ht1 Ht2]. exists (Z.to_nat ((t - tmin) `div` tw)).
    assert (0 ≤ (t - tmin) `div` tw) by (apply Z.div_pos; lia).
    assert ((t - tmin) `div` tw ≤ (tmax - tmin) `div` tw)
      by (apply Z.div_le_mono; lia).
    split; [lia|]. unfold window_start. rewrite Z2Nat.id by done.
    pose proof (Z.div_mod (t - tmin) tw ltac:(lia)).
    pose proof (Z.mod_pos_bound (t - tmin) tw Htw). lia.
Qed.

(** C4, as the code has it.  A width of zero makes the window count fail, so
    [dataframe_split] raises before any partition is built.  A negative width
    raises nothing: on a non-empty record set, in the range where the code's
    int64 sums and float quotient are exact, the split returns at most one
    partition, and it holds no row. *)
Theorem dataframe_split_nonpositive_width data tw :
  (tw = 0 → raises (dataframe_split data tw)) ∧
  (tw < 0 → data ≠ [] → exact_split data tw →
   ∃ df_split, dataframe_split data tw = Ok df_split ∧
     (length df_split ≤ 1)%nat ∧ ∀ p, p ∈ df_split → p = []).
Proof.
  split.
  - intros ->. unfold dataframe_split, window_count.
    destruct (series_min (sampletimestamp <$> data)),
      (series_max (sampletimestamp <$> data)); try by eexists.
    rewrite decide_True by done. case_decide; by eexists.
  - intros Htw Hdata _.
    destruct (series_min_is_Some (sampletimestamp <$> data)) as [tmin Hmin].
    { by destruct data. }
    destruct (series_max_is_Some (sampletimestamp <$> data)) as [tmax Hmax].
    { by destruct data. }
    pose proof (series_min_le_max _ _ _ Hmin Hmax) as Hle.
    eexists. split; [apply (dataframe_split_Ok data tw tmin tmax); auto; lia|].
    assert ((tmax - tmin) `quot` tw ≤ 0) as Hq.
    { replace tw with (- - tw) by lia. rewrite Z.quot_opp_r by lia.
      pose proof (Z.quot_pos (tmax - tmin) (- tw)). lia. }
    rewrite length_fmap, length_seq. split; [lia|].
    intros p (i & -> & _)%list_elem_of_fmap. unfold slice.
    apply elem_of_nil_inv. intros r [[H1 H2] _]%list_elem_of_filter.
    unfold window_start in *. nia.
Qed.

(** C6.  Both bounds of a window are included: in the range where the code's
    int64 sums and float quotient are exact, a row whose timestamp is the end
    of window [i], which is the start of window [i + 1], belongs to the
    partitions of both windows. *)
Theorem boundary_row_in_two_windows data tw tmin df_split r i :
  0 < tw →
  exact_split data tw →
  series_min (sampletimestamp <$> data) = Some tmin →
  dataframe_split data tw = Ok df_split →
  r ∈ data →
  sampletimestamp r = window_start tmin tw i + tw →
  sampletimestamp r = window_start tmin tw (S i) ∧
  ∃ p q, df_split !! i = Some p ∧ df_split !! S i = Some q ∧ r ∈ p ∧ r ∈ q.
Proof.
  intros Htw _ Hmin Hsplit Hr Hts.
  assert (window_start tmin tw (S i) = window_start tmin tw i + tw) as HS
    by (unfold window_start; lia).
  split; [congruence|].
  destruct (series_max_is_Some (sampletimestamp <$> data)) as [tmax Hmax].
  { intros Hnil. by rewrite Hnil in Hmin. }
  pose proof (series_min_le_max _ _ _ Hmin Hmax) as Hle.
  rewrite (dataframe_split_Ok data tw tmin tmax) in Hsplit by (auto; lia).
  injection Hsplit as <-.
  destruct (window_count_pos tmin tmax tw Hle Htw) as [Hq Hpos]. rewrite Hq.
  assert (sampletimestamp r ≤ tmax) as Hrmax.
  { apply series_max_Some in Hmax as [_ Hup]. apply Hup.
    by apply list_elem_of_fmap_2. }
  assert (Z.of_nat (S i) ≤ (tmax - tmin) `div` tw) as Hi.
  { apply Z.div_le_lower_bound; [done|]. unfold window_start in *. lia. }
  exists (slice data tmin tw i), (slice data tmin tw (S i)).
  rewrite !slice_lookup by lia. repeat split; try done.
  - apply list_elem_of_filter. split; [|done]. unfold in_window. lia.
  - apply list_elem_of_filter. split; [|done]. unfold in_window. lia.
Qed.

End SplitClaims.

(** Membership in a list written out. *)
Ltac in_list :=
  repeat first [ apply list_elem_of_here | apply list_elem_of_further ].

(** [exact_split] on a trace written out. *)
Ltac in_range := refine (bool_decide_unpack _ _); vm_compute; exact I.

(** Three rows spanning 450 seconds are split into four windows of 150. *)
Lemma dataframe_split_windows_witness :
  ∃ df_split,
    dataframe_split Scenario.one_user 150 = Ok df_split ∧
    Z.of_nat (length df_split) = (1450 - 1000) `div` 150 + 1 ∧
    (∀ i, (i < length df_split)%nat →
       df_split !! i =
         Some (filter (in_window (window_start 1000 150 i) 150) Scenario.one_user)) ∧
    window_start 1000 150 0 = 1000 ∧
    (∀ i, window_start 1000 150 (S i) = window_start 1000 150 i + 150) ∧
    (∀ i j, (i < j)%nat → window_start 1000 150 i < window_start 1000 150 j) ∧
    (∀ t, 1000 ≤ t ≤ 1450 →
       ∃ i, (i < length df_split)%nat ∧
            window_start 1000 150 i ≤ t ≤ window_start 1000 150 i + 150).
Proof.
  apply (dataframe_split_windows Scenario.one_user 150 1000 1450);
    [done | reflexivity | reflexivity | lia | in_range].
Defined.

(** With [tw = -150] the split of a non-empty record set returns normally
    (an empty list of partitions): no error is signalled. *)
Lemma negative_width_not_rejected :
  ¬ (∀ (data : list (@record Scenario.disk)) (tw : Z),
       tw ≤ 0 → raises (dataframe_split data tw)).
Proof.
  intros H. destruct (H Scenario.one_user (-150) ltac:(lia)) as [e He].
  vm_compute in He. discriminate He.
Qed.

Lemma dataframe_split_nonpositive_width_witness :
  raises (dataframe_split Scenario.one_user 0) ∧
  ∃ df_split, dataframe_split Scenario.one_user (-1000) = Ok df_split ∧
    (length df_split ≤ 1)%nat ∧ ∀ p, p ∈ df_split → p = [].
Proof.
  split.
  - by apply (dataframe_split_nonpositive_width Scenario.one_user 0).
  - apply (dataframe_split_nonpositive_width Scenario.one_user (-1000));
      [lia | done | in_range].
Defined.

(** The row of user 1 at second 1150 is in the first and in the second
    window. *)
Lemma boundary_row_in_two_windows_witness :
  let r := Scenario.trace 1 4372000 1040000 1150 in
  sampletimestamp r = window_start 1000 150 1 ∧
  ∃ p q,
    [ [Scenario.trace 0 4372000 1040000 1000; r];
      [r; Scenario.trace 0 4372000 1040000 1200] ] !! 0%nat = Some p ∧
    [ [Scenario.trace 0 4372000 1040000 1000; r];
      [r; Scenario.trace 0 4372000 1040000 1200] ] !! 1%nat = Some q ∧
    r ∈ p ∧ r ∈ q.
Proof.
  apply (boundary_row_in_two_windows Scenario.two_users 150 1000);
    [lia | in_range | reflexivity | reflexivity | in_list | reflexivity].
Defined.

(** ** Lists, [unique] and [dict] *)

Section ListFacts.
Context {A B : Type}.
Implicit Types (l : list A).

Lemma filter_iff_elem (P Q : A → Prop)
    `{!∀ x, Decision (P x), !∀ x, Decision (Q x)} l :
  (∀ x, x ∈ l → P x ↔ Q x) → filter P l = filter Q l.
Proof.
  induction l as [|a l IH]; intros HPQ; [done|].
  rewrite !filter_cons, IH by (intros; apply HPQ; by right).
  apply decide_ext, HPQ. by left.
Qed.

Lemma filter_none (P : A → Prop) `{!∀ x, Decision (P x)} l :
  (∀ x, x ∈ l → ¬ P x) → filter P l = [].
Proof.
  intros HP. apply elem_of_nil_inv. intros x [? ?]%list_elem_of_filter.
  by eapply HP.
Qed.

Lemma filter_all (P : A → Prop) `{!∀ x, Decision (P x)} l :
  (∀ x, x ∈ l → P x) → filter P l = l.
Proof.
  induction l as [|a l IH]; intros HP; [done|].
  rewrite filter_cons_True by (apply HP; by left).
  f_equal. apply IH. intros; apply HP; by right.
Qed.

Lemma filter_fmap (f : A → B) (P : B → Prop) `{!∀ y, Decision (P y)} l :
  filter P (f <$> l) = f <$> filter (λ x, P (f x)) l.
Proof.
  induction l as [|a l IH]; [done|]. cbn [fmap list_fmap].
  rewrite !filter_cons. fold (fmap f l). rewrite IH. by case_decide.
Qed.

Lemma filter_bind (f : A → list B) (P : B → Prop) `{!∀ y, Decision (P y)} l :
  filter P (l ≫= f) = l ≫= (λ x, filter P (f x)).
Proof.
  induction l as [|a l IH]; [done|].
  by rewrite !bind_cons, filter_app, IH.
Qed.

(** A bind that is empty everywhere but at one element of a duplicate-free
    list yields what that element yields. *)
Lemma bind_single `{!EqDecision A} (f : A → list B) (g : A → list B) l x :
  NoDup l → x ∈ l →
  (∀ y, y ∈ l → f y = if decide (y = x) then g x else []) →
  l ≫= f = g x.
Proof.
  induction l as [|a l IH]; intros Hnd Hx Hf; [by apply elem_of_nil in Hx|].
  apply NoDup_cons in Hnd as [Ha Hnd]. rewrite bind_cons.
  destruct (decide (a = x)) as [->|Hne].
  - rewrite (Hf x) by (by left). rewrite decide_True by done.
    replace (l ≫= f) with (@nil B); [by rewrite app_nil_r|].
    symmetry. apply elem_of_nil_inv. intros z (y & Hz & Hy)%list_elem_of_bind.
    rewrite (Hf y) in Hz by (by right).
    rewrite decide_False in Hz by (intros ->; done). by apply elem_of_nil in Hz.
  - rewrite (Hf a) by (by left). rewrite decide_False by done. simpl.
    apply IH; [done| |].
    + apply elem_of_cons in Hx as [->|]; done.
    + intros; apply Hf; by right.
Qed.

End ListFacts.

Section Unique.
Context `{Countable A}.
Implicit Types (l : list A) (seen : gset A).

Lemma unique_from_filter seen l :
  unique_from seen l = filter (λ x, x ∉ seen) (unique l).
Proof.
  unfold unique. revert seen. induction l as [|a l IH]; intros seen; [done|].
  cbn [unique_from]. rewrite (decide_False (P := a ∈ ∅)) by apply not_elem_of_empty.
  rewrite (IH ({[a]} ∪ ∅)). destruct (decide (a ∈ seen)) as [Ha|Ha].
  - rewrite filter_cons_False by (intros ?; done).
    rewrite IH, list_filter_filter. apply list_filter_iff. intros x.
    rewrite not_elem_of_union, not_elem_of_singleton.
    pose proof (not_elem_of_empty (C := gset A) x).
    split; [|tauto]. intros Hx. split; [done|split; [|done]]. by intros ->.
  - rewrite filter_cons_True by done. f_equal.
    rewrite IH, list_filter_filter. apply list_filter_iff. intros x.
    rewrite !not_elem_of_union, not_elem_of_singleton.
    pose proof (not_elem_of_empty (C := gset A) x). tauto.
Qed.

Lemma unique_cons a l : unique (a :: l) = a :: filter (λ x, x ≠ a) (unique l).
Proof.
  unfold unique at 1. cbn [unique_from].
  rewrite decide_False by apply not_elem_of_empty. f_equal.
  rewrite unique_from_filter. apply list_filter_iff. intros x.
  rewrite not_elem_of_union, not_elem_of_singleton.
  pose proof (not_elem_of_empty (C := gset A) x). tauto.
Qed.

Lemma elem_of_unique x l : x ∈ unique l ↔ x ∈ l.
Proof.
  induction l as [|a l IH]; [done|].
  rewrite unique_cons, !elem_of_cons, list_elem_of_filter, IH.
  destruct (decide (x = a)); tauto.
Qed.

Lemma NoDup_unique l : NoDup (unique l).
Proof.
  induction l as [|a l IH]; [constructor|].
  rewrite unique_cons. apply NoDup_cons. split.
  - rewrite list_elem_of_filter. by intros [Hne _].
  - by apply NoDup_filter.
Qed.

Lemma unique_nil_inv l : unique l = [] → l = [].
Proof. destruct l; [done|]. by rewrite unique_cons. Qed.

End Unique.

(** [unique] commutes with a relabelling that is injective on the column. *)
Lemma unique_fmap_inj `{Countable A, Countable B} (f : A → B) (l : list A) :
  (∀ x y, x ∈ l → y ∈ l → f x = f y → x = y) →
  unique (f <$> l) = f <$> unique l.
Proof.
  induction l as [|a l IH]; intros Hinj; [done|].
  cbn [fmap list_fmap]. fold (fmap f l).
  rewrite !unique_cons. rewrite IH by (intros x y ??; apply Hinj; by right).
  cbn [fmap list_fmap]. f_equal. rewrite filter_fmap. f_equal.
  apply filter_iff_elem. intros x Hx. rewrite elem_of_unique in Hx. split.
  - intros Hne ->. done.
  - intros Hne Heq. apply Hne, (Hinj x a); [|apply list_elem_of_here|done].
    by apply list_elem_of_further.
Qed.

Section Dict.
Context `{Countable K} {V : Type}.
Implicit Types (pairs : list (K * V)).

Lemma dict_snoc pairs k v : dict (pairs ++ [(k, v)]) = <[k := v]> (dict pairs).
Proof. unfold dict. by rewrite foldl_app. Qed.

Lemma dict_lookup pairs k v :
  NoDup pairs.*1 → (k, v) ∈ pairs → dict pairs !! k = Some v.
Proof.
  induction pairs as [|[k' v'] pairs IH] using rev_ind; intros Hnd Hin.
  { by apply elem_of_nil in Hin. }
  rewrite dict_snoc. rewrite fmap_app in Hnd.
  apply NoDup_app in Hnd as (Hnd & Hdisj & _).
  apply elem_of_app in Hin as [Hin|Hin%list_elem_of_singleton].
  - rewrite lookup_insert_ne; [by apply IH|].
    intros <-. apply (Hdisj k'); [|simpl; by left].
    apply list_elem_of_fmap. by exists (k', v).
  - injection Hin as -> ->. by rewrite lookup_insert_eq.
Qed.

(** Keys zipped with values, looked up by position. *)
Lemma dict_zip_lookup (ks : list K) (vs : list V) i k v :
  NoDup ks → length ks = length vs →
  ks !! i = Some k → vs !! i = Some v → dict (zip ks vs) !! k = Some v.
Proof.
  intros Hnd Hlen Hk Hv. apply dict_lookup.
  - by rewrite fst_zip by lia.
  - apply (list_elem_of_lookup_2 _ i).
    by rewrite lookup_zip_with, Hk, Hv.
Qed.

End Dict.

(** ** User relabelling *)

Section UsersMapping.
Context {geometry : Type}.
Implicit Types (data : list (@record geometry)) (r : @record geometry).

(** The new label of a user: its rank among the users in order of first
    appearance. *)
Lemma map_uid_lookup (users : list Z) (k : nat) (u : Z) :
  NoDup users → users !! k = Some u →
  dict (zip users (Z.of_nat <$> seq 0 (length users))) !! u = Some (Z.of_nat k).
Proof.
  intros Hnd Hk. apply (dict_zip_lookup _ _ k); [done| |done|].
  - by rewrite length_fmap, length_seq.
  - rewrite list_lookup_fmap, lookup_seq_lt; [done|].
    by eapply lookup_lt_Some.
Qed.

Lemma users_mapping_user_id data :
  user_id <$> users_mapping data =
  (λ u, default u (dict (zip (unique (user_id <$> data))
           (Z.of_nat <$> seq 0 (length (unique (user_id <$> data))))) !! u))
    <$> (user_id <$> data).
Proof.
  unfold users_mapping. rewrite <-!list_fmap_compose. by apply list_fmap_ext.
Qed.

(** C10.  With [n] distinct user ids in the data, [users_mapping] keeps the
    rows in place and only rewrites their [user_id]; the new ids, listed in
    order of first appearance, are exactly 0, 1, ..., n-1; the new id of a
    row is the rank of its old id among the old ids in order of first
    appearance; and two rows have the same new id if and only if they had the
    same old id. *)
Theorem users_mapping_dense_bijection data :
  let users := unique (user_id <$> data) in
  let n := length users in
  let data' := users_mapping data in
  length data' = length data ∧
  unique (user_id <$> data') = Z.of_nat <$> seq 0 n ∧
  (∀ i r r', data !! i = Some r → data' !! i = Some r' →
     0 ≤ user_id r' < Z.of_nat n ∧
     users !! Z.to_nat (user_id r') = Some (user_id r) ∧
     sampletimestamp r' = sampletimestamp r ∧
     short_range_communication_area r' = short_range_communication_area r) ∧
  (∀ i j ri rj ri' rj',
     data !! i = Some ri → data !! j = Some rj →
     data' !! i = Some ri' → data' !! j = Some rj' →
     user_id ri' = user_id rj' ↔ user_id ri = user_id rj).
Proof.
  intros users n data'.
  assert (NoDup users) as Hnd by apply NoDup_unique.
  set (map_uid := dict (zip users (Z.of_nat <$> seq 0 (length users)))).
  assert (∀ u, u ∈ user_id <$> data →
            ∃ k, users !! k = Some u ∧ map_uid !! u = Some (Z.of_nat k)) as Hrank.
  { intros u Hu. apply elem_of_unique, list_elem_of_lookup in Hu as [k Hk].
    exists k. split; [done|]. by apply map_uid_lookup. }
  assert (∀ i r r', data !! i = Some r → data' !! i = Some r' →
            ∃ k, users !! k = Some (user_id r) ∧ user_id r' = Z.of_nat k ∧
                 sampletimestamp r' = sampletimestamp r ∧
                 short_range_communication_area r' =
                   short_range_communication_area r) as Hrow.
  { intros i r r' Hr Hr'. subst data'. unfold users_mapping in Hr'.
    rewrite list_lookup_fmap, Hr in Hr'. injection Hr' as <-.
    destruct (Hrank (user_id r)) as (k & Hk & Hmap).
    { apply list_elem_of_fmap_2. by eapply list_elem_of_lookup_2. }
    exists k. split; [done|]. simpl. fold users. fold map_uid.
    by rewrite Hmap. }
  split; [|split; [|split]].
  - subst data'. unfold users_mapping. by rewrite length_fmap.
  - subst data'. rewrite users_mapping_user_id. fold users. fold map_uid.
    rewrite unique_fmap_inj.
    + fold users. apply list_eq. intros k.
      rewrite !list_lookup_fmap. destruct (users !! k) as [u|] eqn:Hk; simpl.
      * pose proof (map_uid_lookup users k u Hnd Hk) as Hm.
        fold map_uid in Hm. rewrite Hm. simpl.
        rewrite lookup_seq_lt; [done|]. by eapply lookup_lt_Some.
      * apply lookup_ge_None in Hk. by rewrite lookup_seq_ge.
    + intros u v Hu Hv. destruct (Hrank u Hu) as (k & Hk & ->).
      destruct (Hrank v Hv) as (k' & Hk' & ->). simpl.
      intros Hkk. assert (k = k') as -> by lia. congruence.
  - intros i r r' Hr Hr'.
    destruct (Hrow i r r' Hr Hr') as (k & Hk & -> & Hts & Harea).
    rewrite Nat2Z.id. apply lookup_lt_Some in Hk as Hlt.
    repeat split; try done; lia.
  - intros i j ri rj ri' rj' Hi Hj Hi' Hj'.
    destruct (Hrow i ri ri' Hi Hi') as (k & Hk & -> & _).
    destruct (Hrow j rj rj' Hj Hj') as (k' & Hk' & -> & _). split.
    + intros Hkk. assert (k = k') as -> by lia. congruence.
    + intros Heq. rewrite Heq in Hk. f_equal.
      by eapply NoDup_lookup.
Qed.

End UsersMapping.

(** ** Intersections of one partition *)

Section Intersections.
Context {geometry : Type}.
Variable intersects : geometry → geometry → bool.
Implicit Types (p : list (@record geometry)) (i j : @record geometry).
Implicit Types (e : OverlapEvent) (users : list Z).

Lemma df_dfs_of_lookup p users user :
  user ∈ users →
  df_dfs_of p users !!! user = filter (λ r, user_id r = user) p.
Proof.
  unfold df_dfs_of. intros Hin. rewrite lookup_total_alt.
  enough (∀ d : gmap Z (list record),
    foldl (λ d user, <[user := filter (λ r, user_id r = user) p]> d) d users
      !! user = Some (filter (λ r, user_id r = user) p)) as -> by done.
  induction users as [|u users IH] using rev_ind; intros d.
  { by apply elem_of_nil in Hin. }
  rewrite foldl_app. simpl. destruct (decide (u = user)) as [->|Hne].
  - by rewrite lookup_insert_eq.
  - rewrite lookup_insert_ne by done. apply IH.
    apply elem_of_app in Hin as [?|?%list_elem_of_singleton]; congruence.
Qed.

Lemma elem_of_intersection_row i j e :
  e ∈ intersection_row intersects i j ↔
  intersects (short_range_communication_area i)
             (short_range_communication_area j) = true ∧
  e = mk_overlap (user_id i) (sampletimestamp i) (user_id j) (sampletimestamp j).
Proof.
  unfold intersection_row. destruct (intersects _ _).
  - rewrite list_elem_of_singleton. tauto.
  - rewrite elem_of_nil. split; [done|]. by intros [? _].
Qed.

(** The rows of [intersections]: one for each pair of rows of two users, the
    first user discovered before the second, whose areas intersect. *)
Lemma elem_of_intersections p e :
  e ∈ intersections intersects p ↔
  ∃ (k l : nat) i j,
    (k < l)%nat ∧
    unique (user_id <$> p) !! k = Some (user_id i) ∧
    unique (user_id <$> p) !! l = Some (user_id j) ∧
    i ∈ p ∧ j ∈ p ∧
    intersects (short_range_communication_area i)
               (short_range_communication_area j) = true ∧
    e = mk_overlap (user_id i) (sampletimestamp i) (user_id j) (sampletimestamp j).
Proof.
  unfold intersections. set (users := unique (user_id <$> p)). split.
  - intros (k & He & Hk)%list_elem_of_bind.
    destruct (users !! k) as [subject|] eqn:Hsubj; [|by apply elem_of_nil in He].
    apply list_elem_of_bind in He as (i & He & Hi).
    apply list_elem_of_bind in He as (usr & He & Husr).
    apply list_elem_of_bind in He as (j & He & Hj).
    apply list_elem_of_lookup in Husr as [m Hm]. rewrite lookup_drop in Hm.
    rewrite df_dfs_of_lookup in Hi by (by eapply list_elem_of_lookup_2).
    rewrite df_dfs_of_lookup in Hj by (by eapply list_elem_of_lookup_2).
    apply list_elem_of_filter in Hi as [Hiu Hi].
    apply list_elem_of_filter in Hj as [Hju Hj].
    apply elem_of_intersection_row in He as [Hint ->].
    exists k, (S k + m)%nat, i, j. rewrite Hiu, Hju. repeat split; try done. lia.
  - intros (k & l & i & j & Hkl & Hk & Hl & Hi & Hj & Hint & ->).
    apply list_elem_of_bind. exists k. split.
    + rewrite Hk. apply list_elem_of_bind. exists i. split.
      * apply list_elem_of_bind. exists (user_id j). split.
        -- apply list_elem_of_bind. exists j. split.
           ++ by apply elem_of_intersection_row.
           ++ rewrite df_dfs_of_lookup by (by eapply list_elem_of_lookup_2).
              by apply list_elem_of_filter.
        -- apply (list_elem_of_lookup_2 _ (l - S k)). rewrite lookup_drop.
           by replace (S k + (l - S k))%nat with l by lia.
      * rewrite df_dfs_of_lookup by (by eapply list_elem_of_lookup_2).
        by apply list_elem_of_filter.
    + apply elem_of_seq. apply lookup_lt_Some in Hl. lia.
Qed.

(** The first user of an overlap row was discovered before the second. *)
Lemma intersections_ordered p e :
  e ∈ intersections intersects p →
  ∃ k l : nat, (k < l)%nat ∧
    unique (user_id <$> p) !! k = Some (uid_1 e) ∧
    unique (user_id <$> p) !! l = Some (uid_2 e).
Proof.
  intros (k & l & i & j & Hkl & Hk & Hl & _ & _ & _ & ->)%elem_of_intersections.
  by exists k, l.
Qed.

Lemma intersections_no_self_pair p e :
  e ∈ intersections intersects p → uid_1 e ≠ uid_2 e.
Proof.
  intros (k & l & Hkl & Hk & Hl)%intersections_ordered Heq.
  rewrite Heq in Hk.
  pose proof (NoDup_lookup _ _ _ _ (NoDup_unique (user_id <$> p)) Hk Hl). lia.
Qed.

(** Two overlap rows between the same two users list them in the same order. *)
Lemma intersections_same_orientation p e e' :
  e ∈ intersections intersects p → e' ∈ intersections intersects p →
  same_pair (couple_of e) (couple_of e') → couple_of e' = couple_of e.
Proof.
  intros (k & l & Hkl & Hk & Hl)%intersections_ordered
         (k' & l' & Hkl' & Hk' & Hl')%intersections_ordered [Hsame|Hswap]; [done|].
  unfold couple_of in Hswap. simpl in Hswap. injection Hswap as H1 H2.
  rewrite H1 in Hk'. rewrite H2 in Hl'.
  pose proof (NoDup_unique (user_id <$> p)) as Hnd.
  pose proof (NoDup_lookup _ _ _ _ Hnd Hk Hl').
  pose proof (NoDup_lookup _ _ _ _ Hnd Hl Hk'). lia.
Qed.

(** Two rows of distinct users of the partition whose areas intersect, in
    both directions of the test, yield an overlap row, oriented by the order
    in which the two users are discovered. *)
Lemma intersecting_rows_overlap p i j :
  i ∈ p → j ∈ p → user_id i ≠ user_id j →
  intersects (short_range_communication_area i)
             (short_range_communication_area j) = true →
  intersects (short_range_communication_area j)
             (short_range_communication_area i) = true →
  mk_overlap (user_id i) (sampletimestamp i) (user_id j) (sampletimestamp j)
    ∈ intersections intersects p ∨
  mk_overlap (user_id j) (sampletimestamp j) (user_id i) (sampletimestamp i)
    ∈ intersections intersects p.
Proof.
  intros Hi Hj Hne Hij Hji.
  assert (user_id i ∈ unique (user_id <$> p)) as [k Hk]%list_elem_of_lookup
    by (by apply elem_of_unique, list_elem_of_fmap_2).
  assert (user_id j ∈ unique (user_id <$> p)) as [l Hl]%list_elem_of_lookup
    by (by apply elem_of_unique, list_elem_of_fmap_2).
  destruct (Nat.lt_total k l) as [Hlt|[->|Hlt]].
  - left. apply elem_of_intersections. by exists k, l, i, j.
  - congruence.
  - right. apply elem_of_intersections. by exists l, k, j, i.
Qed.

(** Rows whose areas do not intersect yield no overlap row: every overlap
    row comes from two rows of distinct users on which the test succeeds. *)
Lemma overlap_row_intersecting_rows p e :
  e ∈ intersections intersects p →
  ∃ i j, i ∈ p ∧ j ∈ p ∧ user_id i ≠ user_id j ∧
    intersects (short_range_communication_area i)
               (short_range_communication_area j) = true ∧
    e = mk_overlap (user_id i) (sampletimestamp i)
                   (user_id j) (sampletimestamp j).
Proof.
  intros He. pose proof (intersections_no_self_pair p e He) as Hne.
  apply elem_of_intersections in He
    as (k & l & i & j & _ & _ & _ & Hi & Hj & Hint & ->).
  by exists i, j.
Qed.

End Intersections.

Section OverlapClaim.
Context {geometry : Type}.
Variable intersects : geometry → geometry → bool.
Implicit Types (p : list (@record geometry)) (i j : @record geometry).

(** C2, as the code has it.  Take two rows of two different users in one
    window.  One of the two users is discovered first, and the overlap rows of
    the pair list that user first.  If the areas of the two rows pass shapely's
    [intersects], their overlap row is produced; an overlap row with the ids
    and timestamps of the two rows is produced exactly when two rows with
    these ids and timestamps have areas that pass the test; so, when rows with
    equal user and timestamp have equal areas, exactly when the areas of the
    two rows pass it.  No row is produced in the other orientation.  The
    test is on the areas as built, not on the distance of the centres. *)
Theorem overlap_row_iff_areas_intersect p i j :
  i ∈ p → j ∈ p → user_id i ≠ user_id j →
  (first_seen_before p (user_id i) (user_id j) ∨
   first_seen_before p (user_id j) (user_id i)) ∧
  (first_seen_before p (user_id i) (user_id j) →
   let e := mk_overlap (user_id i) (sampletimestamp i)
                       (user_id j) (sampletimestamp j) in
   (intersects (short_range_communication_area i)
               (short_range_communication_area j) = true →
    e ∈ intersections intersects p) ∧
   (e ∈ intersections intersects p ↔
    ∃ i' j', i' ∈ p ∧ j' ∈ p ∧
      user_id i' = user_id i ∧ sampletimestamp i' = sampletimestamp i ∧
      user_id j' = user_id j ∧ sampletimestamp j' = sampletimestamp j ∧
      intersects (short_range_communication_area i')
                 (short_range_communication_area j') = true) ∧
   ((∀ r r', r ∈ p → r' ∈ p → user_id r = user_id r' →
       sampletimestamp r = sampletimestamp r' →
       short_range_communication_area r = short_range_communication_area r') →
    (e ∈ intersections intersects p ↔
     intersects (short_range_communication_area i)
                (short_range_communication_area j) = true)) ∧
   mk_overlap (user_id j) (sampletimestamp j) (user_id i) (sampletimestamp i)
     ∉ intersections intersects p).
Proof.
  intros Hi Hj Hne.
  pose proof (NoDup_unique (user_id <$> p)) as Hnd.
  assert (∀ e, e ∈ intersections intersects p ↔
    ∃ i' j', i' ∈ p ∧ j' ∈ p ∧
      first_seen_before p (user_id i') (user_id j') ∧
      intersects (short_range_communication_area i')
                 (short_range_communication_area j') = true ∧
      e = mk_overlap (user_id i') (sampletimestamp i')
                     (user_id j') (sampletimestamp j')) as Hchar.
  { intros e. rewrite elem_of_intersections. unfold first_seen_before. split.
    - intros (k & l & i' & j' & ? & ? & ? & ? & ? & ? & ->).
      exists i', j'. repeat split; try done. by exists k, l.
    - intros (i' & j' & ? & ? & (k & l & ? & ? & ?) & ? & ->).
      by exists k, l, i', j'. }
  split.
  - assert (user_id i ∈ unique (user_id <$> p)) as [k Hk]%list_elem_of_lookup
      by (by apply elem_of_unique, list_elem_of_fmap_2).
    assert (user_id j ∈ unique (user_id <$> p)) as [l Hl]%list_elem_of_lookup
      by (by apply elem_of_unique, list_elem_of_fmap_2).
    destruct (Nat.lt_total k l) as [Hlt|[->|Hlt]].
    + left. by exists k, l.
    + congruence.
    + right. by exists l, k.
  - intros Hbefore e.
    assert (e ∈ intersections intersects p ↔
      ∃ i' j', i' ∈ p ∧ j' ∈ p ∧
        user_id i' = user_id i ∧ sampletimestamp i' = sampletimestamp i ∧
        user_id j' = user_id j ∧ sampletimestamp j' = sampletimestamp j ∧
        intersects (short_range_communication_area i')
                   (short_range_communication_area j') = true) as Hiff.
    { rewrite Hchar. split.
      - intros (i' & j' & ? & ? & _ & ? & [= ? ? ? ?]). by exists i', j'.
      - intros (i' & j' & ? & ? & Hui & Hti & Huj & Htj & ?).
        exists i', j'. subst e. rewrite Hui, Hti, Huj, Htj. by repeat split. }
    split; [|split; [done|split]].
    + intros Hint. apply Hiff. by exists i, j.
    + intros Hkey. rewrite Hiff. split.
      * intros (i' & j' & Hi' & Hj' & Hui & Hti & Huj & Htj & Hint).
        by rewrite <-(Hkey i' i Hi' Hi Hui Hti), <-(Hkey j' j Hj' Hj Huj Htj).
      * intros Hint. by exists i, j.
    + intros (i' & j' & _ & _ & (k & l & Hkl & Hk & Hl) & _ & [= Hu1 _ Hu2 _])%Hchar.
      destruct Hbefore as (k' & l' & Hkl' & Hk' & Hl').
      rewrite <-Hu1 in Hk. rewrite <-Hu2 in Hl.
      pose proof (NoDup_lookup _ _ _ _ Hnd Hk Hl').
      pose proof (NoDup_lookup _ _ _ _ Hnd Hl Hk'). lia.
Qed.

End OverlapClaim.

(** CPython's order as an instance of the contract.  The enumeration read
    off the table is checked to be a duplicate-free enumeration of the keys;
    the alternative (first-seen order) is there for totality only. *)
Global Program Instance cpython_set : PySet := {|
  py_set_iter keys :=
    let r := CPython.set_iter keys in
    if decide (NoDup r ∧ Forall (λ c, c ∈ keys) r ∧ Forall (λ c, c ∈ r) keys)
    then r else unique keys
|}.
Next Obligation.
  intros keys. simpl. case_decide as Hr; [apply Hr|apply NoDup_unique].
Qed.
Next Obligation.
  intros keys c. simpl. case_decide as Hr; [|apply elem_of_unique].
  destruct Hr as (_ & Hsub & Hsup). rewrite Forall_forall in Hsub, Hsup.
  split; auto.
Qed.

(** ** Co-locations of one window *)

Section Aggregator.
Context {S : PySet}.
Implicit Types (df : list OverlapEvent) (e : OverlapEvent) (c : Z * Z).

Lemma elem_of_df_time_of (sc : list OverlapEvent) t :
  t ∈ df_time_of sc ↔
  ∃ e, e ∈ sc ∧ (t = timestamp_uid_1 e ∨ t = timestamp_uid_2 e).
Proof.
  unfold df_time_of. rewrite elem_of_app, !list_elem_of_fmap. split.
  - intros [(e & -> & He)|(e & -> & He)]; exists e; auto.
  - intros (e & He & [->| ->]); [left|right]; by exists e.
Qed.

Lemma elem_of_sc_of df c e : e ∈ sc_of df c ↔ couple_of e = c ∧ e ∈ df.
Proof.
  unfold sc_of. rewrite list_elem_of_filter. destruct c as [a b].
  unfold couple_of. simpl. split.
  - by intros [[-> ->] He].
  - by intros [[= -> ->] He].
Qed.

Lemma elem_of_users_couples df c :
  c ∈ users_couples py_set_iter df ↔ ∃ e, e ∈ df ∧ couple_of e = c.
Proof.
  unfold users_couples. rewrite py_set_iter_elem, list_elem_of_fmap. split.
  - intros (e & -> & He). by exists e.
  - intros (e & He & <-). by exists e.
Qed.

Lemma NoDup_users_couples df : NoDup (users_couples py_set_iter df).
Proof. apply py_set_iter_NoDup. Qed.

(** In an oriented frame, selecting by the ordered key selects by the pair. *)
Lemma sc_of_events_between df e :
  oriented df → e ∈ df →
  sc_of df (couple_of e) = events_between (couple_of e) df.
Proof.
  intros Hor He. unfold sc_of, events_between. apply filter_iff_elem.
  intros e' He'. unfold same_pair, couple_of. simpl. split.
  - intros [-> ->]. by left.
  - intros Hsame. pose proof (Hor e e' He He' Hsame) as Heq.
    unfold couple_of in Heq. by injection Heq as -> ->.
Qed.

Lemma rows_between_couple_rows_same df c :
  rows_between c (couple_rows df c) = couple_rows df c.
Proof.
  unfold rows_between. apply filter_all. unfold couple_rows, same_pair.
  destruct c as [a b]. intros r Hr. simpl in Hr.
  rewrite !elem_of_cons, elem_of_nil in Hr.
  destruct Hr as [->|[->|[->|[->|[]]]]]; simpl; auto.
Qed.

Lemma rows_between_couple_rows_other df c c' :
  ¬ same_pair c c' → rows_between c (couple_rows df c') = [].
Proof.
  intros Hne. unfold rows_between. apply filter_none. unfold couple_rows.
  destruct c as [a b], c' as [a' b']. unfold same_pair in *. simpl in *.
  intros r Hr. rewrite !elem_of_cons, elem_of_nil in Hr.
  destruct Hr as [->|[->|[->|[->|[]]]]]; simpl;
    intros [[= -> ->]|[= -> ->]]; apply Hne; auto.
Qed.

(** The rows emitted for the pair of an overlap row, in an oriented frame. *)
Lemma rows_between_coloc df e :
  oriented df → e ∈ df →
  rows_between (couple_of e) (coloc py_set_iter df) = couple_rows df (couple_of e).
Proof.
  intros Hor He. unfold rows_between, coloc. rewrite filter_bind.
  apply (bind_single _ (couple_rows df)).
  - apply NoDup_users_couples.
  - apply elem_of_users_couples. by exists e.
  - intros c' (e' & He' & <-)%elem_of_users_couples. case_decide as Hc.
    + rewrite Hc. apply rows_between_couple_rows_same.
    + apply rows_between_couple_rows_other. intros Hsame. by apply Hc, Hor.
Qed.

Lemma couple_rows_times df e :
  e ∈ df →
  ∃ tmin tmax,
    series_min (df_time_of (sc_of df (couple_of e))) = Some tmin ∧
    series_max (df_time_of (sc_of df (couple_of e))) = Some tmax ∧
    tmin ≤ tmax.
Proof.
  intros He.
  assert (df_time_of (sc_of df (couple_of e)) ≠ []) as Hne.
  { intros Hnil. apply (elem_of_nil (timestamp_uid_1 e)). rewrite <-Hnil.
    apply elem_of_df_time_of. exists e. split; [|by left].
    by apply elem_of_sc_of. }
  destruct (series_min_is_Some _ Hne) as [tmin Hmin].
  destruct (series_max_is_Some _ Hne) as [tmax Hmax].
  exists tmin, tmax. repeat split; try done. by eapply series_min_le_max.
Qed.

End Aggregator.

(** ** The pipeline *)

Section Pipeline.
Context {geometry : Type}.
Variable intersects : geometry → geometry → bool.
Variable set_iter : list (Z * Z) → list (Z * Z).
Implicit Types (data p : list (@record geometry)).
Implicit Types (df : list OverlapEvent) (dfs : list (list OverlapEvent)).

Lemma get_intersections_Ok data dfs :
  get_intersections intersects data = Ok dfs ↔
  ∃ df_split, dataframe_split data 150 = Ok df_split ∧
              dfs = intersections intersects <$> df_split.
Proof.
  unfold get_intersections. destruct (dataframe_split data 150); simpl.
  - split; [intros [= <-]; by eexists|]. by intros (? & [= <-] & ->).
  - split; [done|]. by intros (? & ? & _).
Qed.

Lemma intersections_oriented p : oriented (intersections intersects p).
Proof. intros e e' He He'. by eapply intersections_same_orientation. Qed.

Lemma pd_DataFrame_rows {row} (rows : list row) : (pd_DataFrame rows).*2 = rows.
Proof. unfold pd_DataFrame. rewrite snd_zip; [done|]. by rewrite length_seq. Qed.

Lemma reset_index_rows {row} (d : DataFrame row) : (reset_index d).*2 = d.*2.
Proof.
  unfold reset_index. rewrite snd_zip; [done|].
  by rewrite length_seq, length_fmap.
Qed.

Lemma reset_index_labels {row} (d : DataFrame row) :
  (reset_index d).*1 = seq 0 (length (reset_index d)).
Proof.
  unfold reset_index. rewrite length_zip, length_seq, length_fmap, Nat.min_id.
  rewrite fst_zip; [done|]. by rewrite length_seq, length_fmap.
Qed.

Lemma concat_windows_rows dfs :
  (concat_windows set_iter dfs).*2 = dfs ≫= coloc set_iter.
Proof.
  unfold concat_windows.
  enough (∀ acc : DataFrame ColocationEvent,
    (foldl (λ df_ac df, pd_concat df_ac (pd_DataFrame (coloc set_iter df)))
       acc dfs).*2 = acc.*2 ++ (dfs ≫= coloc set_iter)) as -> by done.
  induction dfs as [|df dfs IH]; intros acc; simpl.
  - by rewrite app_nil_r.
  - rewrite IH. unfold pd_concat.
    by rewrite fmap_app, pd_DataFrame_rows, <-app_assoc.
Qed.

(** The rows of the returned table, window after window. *)
Lemma get_colocations_Ok data out :
  get_colocations intersects set_iter data = Ok out →
  ∃ df_split, dataframe_split data 150 = Ok df_split ∧
    out.*2 = df_split ≫= (λ p, coloc set_iter (intersections intersects p)) ∧
    out.*1 = seq 0 (length out).
Proof.
  unfold get_colocations.
  destruct (get_intersections intersects data) as [dfs|] eqn:Hint; [|done].
  apply get_intersections_Ok in Hint as (df_split & Hsplit & ->).
  simpl. intros [= <-]. exists df_split. split; [done|].
  rewrite reset_index_rows, concat_windows_rows, reset_index_labels.
  split; [|done]. by rewrite list_fmap_bind.
Qed.

End Pipeline.

Section PipelineClaims.
Context {geometry : Type} {S : PySet}.
Variable intersects : geometry → geometry → bool.
Implicit Types (data p : list (@record geometry)).
Implicit Types (df : list OverlapEvent) (dfs : list (list OverlapEvent)).
Implicit Types (e : OverlapEvent).


(** C7.  No overlap row of the pipeline has [uid_1 = uid_2], and no row of
    the returned table has [node_1 = node_2]. *)
Theorem no_self_pairs data :
  (∀ dfs df e,
     get_intersections intersects data = Ok dfs → df ∈ dfs → e ∈ df →
     uid_1 e ≠ uid_2 e) ∧
  (∀ out row,
     get_colocations intersects py_set_iter data = Ok out → row ∈ out.*2 →
     node_1 row ≠ node_2 row).
Proof.
  split.
  - intros dfs df e (df_split & _ & ->)%get_intersections_Ok
      (p & -> & _)%list_elem_of_fmap He.
    by eapply intersections_no_self_pair.
  - intros out row (df_split & _ & Hrows & _)%get_colocations_Ok Hrow.
    rewrite Hrows in Hrow.
    apply list_elem_of_bind in Hrow as (p & Hrow & _).
    apply list_elem_of_bind in Hrow as (c & Hrow & Hc).
    apply elem_of_users_couples in Hc as (e & He & <-).
    apply intersections_no_self_pair in He.
    unfold couple_rows, couple_of in Hrow. simpl in Hrow.
    rewrite !elem_of_cons, elem_of_nil in Hrow.
    destruct Hrow as [->|[->|[->|[->|[]]]]]; simpl; congruence.
Qed.

(** C9.  Within a window, every overlap row has as [uid_1] a user discovered
    before its [uid_2]; so all overlap rows between two users list them in
    the same order, and selecting the rows by the ordered key
    [(uid_1, uid_2)] selects the rows of the unordered pair. *)
Theorem overlap_orientation p e :
  e ∈ intersections intersects p →
  (∃ k l : nat, (k < l)%nat ∧
     unique (user_id <$> p) !! k = Some (uid_1 e) ∧
     unique (user_id <$> p) !! l = Some (uid_2 e)) ∧
  (∀ e', e' ∈ intersections intersects p →
     same_pair (couple_of e) (couple_of e') → couple_of e' = couple_of e) ∧
  sc_of (intersections intersects p) (couple_of e) =
    events_between (couple_of e) (intersections intersects p).
Proof.
  intros He. split; [by apply (intersections_ordered intersects)|]. split.
  - intros e' He'. by apply (intersections_same_orientation intersects p).
  - apply sc_of_events_between; [apply intersections_oriented|done].
Qed.

(** C5, as the code has it.  In the range where the code's int64 sums and
    float quotient are exact, the rows of the returned table are those of the
    windows in chronological order; the rows of a window are the four-row
    groups of its couples, one group per distinct couple, in the order in
    which the set of couples is iterated; and the labels are 0, 1, 2, ... *)
Theorem output_order data out :
  exact_split data 150 →
  get_colocations intersects py_set_iter data = Ok out →
  ∃ tmin df_split,
    series_min (sampletimestamp <$> data) = Some tmin ∧
    dataframe_split data 150 = Ok df_split ∧
    (∀ i p, df_split !! i = Some p → p = slice data tmin 150 i) ∧
    out.*2 = df_split ≫= (λ p, coloc py_set_iter (intersections intersects p)) ∧
    (∀ p, let df := intersections intersects p in
       coloc py_set_iter df = users_couples py_set_iter df ≫= couple_rows df ∧
       NoDup (users_couples py_set_iter df) ∧
       ∀ c, c ∈ users_couples py_set_iter df ↔ ∃ e, e ∈ df ∧ couple_of e = c) ∧
    out.*1 = seq 0 (length out).
Proof.
  intros _ (df_split & Hsplit & Hrows & Hlabels)%get_colocations_Ok.
  destruct (series_min (sampletimestamp <$> data)) as [tmin|] eqn:Hmin;
    [|by unfold dataframe_split in Hsplit; rewrite Hmin in Hsplit].
  destruct (series_max (sampletimestamp <$> data)) as [tmax|] eqn:Hmax;
    [|by unfold dataframe_split in Hsplit; rewrite Hmin, Hmax in Hsplit].
  exists tmin, df_split. repeat split; try done.
  - intros i p Hp.
    rewrite (dataframe_split_Ok data 150 tmin tmax) in Hsplit by done.
    injection Hsplit as <-.
    apply list_lookup_fmap_Some in Hp as (j & -> & [-> _]%lookup_seq). done.
  - apply NoDup_users_couples.
  - by intros ?%elem_of_users_couples.
  - by intros ?%elem_of_users_couples.
Qed.

End PipelineClaims.

Section AggregatorClaims.
Context {S : PySet}.
Implicit Types (df : list OverlapEvent) (e : OverlapEvent).

(** C8.  Adding to a window's overlap rows a row of a couple that is
    already there -- a copy of one of its rows, or a row whose two timestamps
    lie between the couple's minimum and maximum -- changes neither the four
    rows emitted for that couple nor those of any other couple, and the
    window emits the same rows. *)
Theorem aggregator_ignores_multiplicity (df1 df2 : list OverlapEvent) e tmin tmax :
  let df := df1 ++ df2 in
  let df' := df1 ++ e :: df2 in
  series_min (df_time_of (sc_of df (couple_of e))) = Some tmin →
  series_max (df_time_of (sc_of df (couple_of e))) = Some tmax →
  e ∈ df ∨ (tmin ≤ timestamp_uid_1 e ≤ tmax ∧ tmin ≤ timestamp_uid_2 e ≤ tmax) →
  couple_rows df' (couple_of e) =
    [ mk_coloc (uid_1 e) (uid_2 e) (Some tmin) up;
      mk_coloc (uid_1 e) (uid_2 e) (Some tmax) down;
      mk_coloc (uid_2 e) (uid_1 e) (Some tmin) up;
      mk_coloc (uid_2 e) (uid_1 e) (Some tmax) down ] ∧
  (∀ c, couple_rows df' c = couple_rows df c) ∧
  coloc py_set_iter df' ≡ₚ coloc py_set_iter df ∧
  (oriented df' →
   rows_between (couple_of e) (coloc py_set_iter df') =
   rows_between (couple_of e) (coloc py_set_iter df)).
Proof.
  intros df df' Hmin Hmax Hin.
  assert (∀ e0, e0 ∈ df' ↔ e0 = e ∨ e0 ∈ df) as Hdf'.
  { intros e0. subst df df'. rewrite !elem_of_app, elem_of_cons. tauto. }
  apply series_min_Some in Hmin as Hmin'. destruct Hmin' as [Hmin_in Hmin_low].
  apply series_max_Some in Hmax as Hmax'. destruct Hmax' as [Hmax_in Hmax_up].
  assert (tmin ≤ timestamp_uid_1 e ≤ tmax ∧ tmin ≤ timestamp_uid_2 e ≤ tmax)
    as [Ht1 Ht2].
  { destruct Hin as [He|?]; [|done].
    assert (e ∈ sc_of df (couple_of e)) as Hsc by (by apply elem_of_sc_of).
    split; (split; [apply Hmin_low|apply Hmax_up]);
      apply elem_of_df_time_of; exists e; auto. }
  assert (∀ c t, t ∈ df_time_of (sc_of df' c) ↔
            t ∈ df_time_of (sc_of df c) ∨
            (c = couple_of e ∧ (t = timestamp_uid_1 e ∨ t = timestamp_uid_2 e)))
    as Htimes.
  { intros c t. rewrite !elem_of_df_time_of. split.
    - intros (e0 & [Hc [->|He0]%Hdf']%elem_of_sc_of & Ht); [by right|].
      left. exists e0. by rewrite elem_of_sc_of.
    - intros [(e0 & [Hc He0]%elem_of_sc_of & Ht)|[-> Ht]].
      + exists e0. rewrite elem_of_sc_of, Hdf'. auto.
      + exists e. rewrite elem_of_sc_of, Hdf'. auto. }
  assert (∀ c, series_min (df_time_of (sc_of df' c)) =
               series_min (df_time_of (sc_of df c)) ∧
               series_max (df_time_of (sc_of df' c)) =
               series_max (df_time_of (sc_of df c))) as Hsame.
  { intros c. destruct (decide (c = couple_of e)) as [->|Hne].
    - rewrite Hmin, Hmax. split.
      + apply series_min_Some. split; [apply Htimes; by left|].
        intros t [?|[_ [->| ->]]]%Htimes; [by apply Hmin_low|lia..].
      + apply series_max_Some. split; [apply Htimes; by left|].
        intros t [?|[_ [->| ->]]]%Htimes; [by apply Hmax_up|lia..].
    - assert (sc_of df' c = sc_of df c) as ->; [|done].
      subst df df'. unfold sc_of. rewrite !filter_app. f_equal.
      rewrite filter_cons_False; [done|].
      intros [H1 H2]. apply Hne. destruct c. unfold couple_of. simpl in *.
      congruence. }
  assert (∀ c, couple_rows df' c = couple_rows df c) as Hrows.
  { intros c. unfold couple_rows. destruct (Hsame c) as [-> ->]. done. }
  split; [|split; [done|split]].
  - rewrite Hrows. unfold couple_rows. rewrite Hmin, Hmax. done.
  - unfold coloc. rewrite (list_bind_ext _ (couple_rows df) _
      (users_couples py_set_iter df')) by done.
    apply bind_Permutation, NoDup_Permutation; try apply NoDup_users_couples.
    intros c. rewrite !elem_of_users_couples. split.
    + intros (e0 & [->|He0]%Hdf' & <-); [|by exists e0].
      apply elem_of_df_time_of in Hmin_in as (e1 & [Hc He1]%elem_of_sc_of & _).
      by exists e1.
    + intros (e0 & He0 & <-). exists e0. rewrite Hdf'. auto.
  - intros Hor'.
    apply elem_of_df_time_of in Hmin_in as (e1 & [Hc He1]%elem_of_sc_of & _).
    assert (oriented df) as Hor.
    { intros x y Hx Hy. apply Hor'; apply Hdf'; auto. }
    rewrite (rows_between_coloc df' e Hor') by (apply Hdf'; auto).
    rewrite <-Hc, (rows_between_coloc df e1 Hor He1). by rewrite Hrows.
Qed.

End AggregatorClaims.

(** ** The scenarios, run *)


(** The row of user 1 at second 1150 lies on the bound of the two windows
    and takes part in an overlap row of each: the same contact is reported
    in both. *)
Example boundary_row_counted_twice :
  get_intersections Scenario.disk_intersects Scenario.two_users =
    Ok [[mk_overlap 0 1000 1 1150]; [mk_overlap 1 1150 0 1200]].
Proof. reflexivity. Qed.

Lemma no_self_pairs_witness :
  (∀ dfs df e,
     get_intersections Scenario.disk_intersects Scenario.three_users = Ok dfs →
     df ∈ dfs → e ∈ df → uid_1 e ≠ uid_2 e) ∧
  (∀ out row,
     get_colocations Scenario.disk_intersects py_set_iter Scenario.three_users
       = Ok out →
     row ∈ out.*2 → node_1 row ≠ node_2 row).
Proof. apply (no_self_pairs Scenario.disk_intersects Scenario.three_users). Defined.

Lemma overlap_orientation_witness :
  let p := Scenario.three_users in
  let e := mk_overlap 0 1030 1 1010 in
  (∃ k l : nat, (k < l)%nat ∧
     unique (user_id <$> p) !! k = Some (uid_1 e) ∧
     unique (user_id <$> p) !! l = Some (uid_2 e)) ∧
  (∀ e', e' ∈ intersections Scenario.disk_intersects p →
     same_pair (couple_of e) (couple_of e') → couple_of e' = couple_of e) ∧
  sc_of (intersections Scenario.disk_intersects p) (couple_of e) =
    events_between (couple_of e) (intersections Scenario.disk_intersects p).
Proof.
  apply (overlap_orientation Scenario.disk_intersects Scenario.three_users
           (mk_overlap 0 1030 1 1010)).
  vm_compute. in_list.
Defined.

(** On CPython the table of [three_users] starts with the rows of users 0
    and 1, although the first overlap row found is between users 0 and 2. *)
Example three_users_on_cpython :
  (get_intersections Scenario.disk_intersects Scenario.three_users =
     Ok [[mk_overlap 0 1000 2 1020; mk_overlap 0 1030 1 1010]]) ∧
  (CPython.set_iter [(0, 2); (0, 1)] = [(0, 1); (0, 2)]) ∧
  (get_colocations Scenario.disk_intersects CPython.set_iter Scenario.three_users =
     Ok (zip (seq 0 8)
           [ mk_coloc 0 1 (Some 1010) up; mk_coloc 0 1 (Some 1030) down;
             mk_coloc 1 0 (Some 1010) up; mk_coloc 1 0 (Some 1030) down;
             mk_coloc 0 2 (Some 1000) up; mk_coloc 0 2 (Some 1020) down;
             mk_coloc 2 0 (Some 1000) up; mk_coloc 2 0 (Some 1020) down ])).
Proof. repeat split; vm_compute; reflexivity. Qed.

(** The rows are not in the order in which the couples are discovered. *)
Lemma discovery_order_fails :
  ∃ out df_split,
    get_colocations Scenario.disk_intersects CPython.set_iter Scenario.three_users
      = Ok out ∧
    dataframe_split Scenario.three_users 150 = Ok df_split ∧
    out.*2 ≠ df_split ≫= (λ p, coloc_in_discovery_order
                                 (intersections Scenario.disk_intersects p)).
Proof.
  eexists _, _. split; [vm_compute; reflexivity|].
  split; [vm_compute; reflexivity|]. vm_compute. discriminate.
Qed.

Lemma output_order_witness :
  ∃ out tmin df_split,
    get_colocations Scenario.disk_intersects py_set_iter Scenario.three_users
      = Ok out ∧
    series_min (sampletimestamp <$> Scenario.three_users) = Some tmin ∧
    dataframe_split Scenario.three_users 150 = Ok df_split ∧
    (∀ i p, df_split !! i = Some p → p = slice Scenario.three_users tmin 150 i) ∧
    out.*2 = df_split ≫=
      (λ p, coloc py_set_iter (intersections Scenario.disk_intersects p)) ∧
    (∀ p, let df := intersections Scenario.disk_intersects p in
       coloc py_set_iter df = users_couples py_set_iter df ≫= couple_rows df ∧
       NoDup (users_couples py_set_iter df) ∧
       ∀ c, c ∈ users_couples py_set_iter df ↔ ∃ e, e ∈ df ∧ couple_of e = c) ∧
    out.*1 = seq 0 (length out).
Proof.
  eexists.
  assert (exact_split Scenario.three_users 150) as Hrange by in_range.
  destruct (output_order Scenario.disk_intersects Scenario.three_users _
              Hrange eq_refl) as (tmin & df_split & H).
  exists tmin, df_split. split; [reflexivity|exact H].
Defined.

Lemma aggregator_ignores_multiplicity_witness :
  let df1 := [mk_overlap 0 1000 1 1150] in
  let df2 := [mk_overlap 0 1100 1 1300] in
  let e := mk_overlap 0 1050 1 1200 in
  couple_rows (df1 ++ e :: df2) (0, 1) =
    [ mk_coloc 0 1 (Some 1000) up; mk_coloc 0 1 (Some 1300) down;
      mk_coloc 1 0 (Some 1000) up; mk_coloc 1 0 (Some 1300) down ] ∧
  (∀ c, couple_rows (df1 ++ e :: df2) c = couple_rows (df1 ++ df2) c) ∧
  coloc py_set_iter (df1 ++ e :: df2) ≡ₚ coloc py_set_iter (df1 ++ df2) ∧
  (oriented (df1 ++ e :: df2) →
   rows_between (couple_of e) (coloc py_set_iter (df1 ++ e :: df2)) =
   rows_between (couple_of e) (coloc py_set_iter (df1 ++ df2))).
Proof.
  apply (aggregator_ignores_multiplicity [mk_overlap 0 1000 1 1150]
           [mk_overlap 0 1100 1 1300] (mk_overlap 0 1050 1 1200) 1000 1300);
    [reflexivity | reflexivity | right; simpl; lia].
Defined.

Lemma users_mapping_dense_bijection_witness :
  let data := [Scenario.trace 42 0 0 1; Scenario.trace 7 0 0 2;
               Scenario.trace 42 0 0 3; Scenario.trace 0 0 0 4] in
  user_id <$> users_mapping data = [0; 1; 0; 2] ∧
  unique (user_id <$> users_mapping data) =
    Z.of_nat <$> seq 0 (length (unique (user_id <$> data))).
Proof.
  intros data. split; [reflexivity|].
  apply (users_mapping_dense_bijection data).
Defined.

(** * Further properties *)

(** ** The split, beyond its window count *)

Section SplitMore.
Context {geometry : Type}.
Implicit Types (data p : list (@record geometry)) (tw : Z).

Lemma dataframe_split_nil tw : dataframe_split (@nil (@record geometry)) tw = Raise ValueError.
Proof. done. Qed.

Lemma series_bounds_of_nonempty data :
  data ≠ [] →
  ∃ tmin tmax,
    series_min (sampletimestamp <$> data) = Some tmin ∧
    series_max (sampletimestamp <$> data) = Some tmax ∧ tmin ≤ tmax.
Proof.
  intros Hne.
  destruct (series_min_is_Some (sampletimestamp <$> data)) as [tmin Hmin].
  { by destruct data. }
  destruct (series_max_is_Some (sampletimestamp <$> data)) as [tmax Hmax].
  { by destruct data. }
  exists tmin, tmax. repeat split; try done. by eapply series_min_le_max.
Qed.

(** What a successful split is, for a positive width. *)
Lemma dataframe_split_inv data tw df_split :
  0 < tw → dataframe_split data tw = Ok df_split →
  ∃ tmin tmax,
    series_min (sampletimestamp <$> data) = Some tmin ∧
    series_max (sampletimestamp <$> data) = Some tmax ∧ tmin ≤ tmax ∧
    df_split = slice data tmin tw <$>
                 seq 0 (Z.to_nat ((tmax - tmin) `div` tw + 1)).
Proof.
  intros Htw Hsplit. destruct (decide (data = [])) as [->|Hne]; [done|].
  destruct (series_bounds_of_nonempty data Hne) as (tmin & tmax & Hmin & Hmax & Hle).
  exists tmin, tmax. rewrite (dataframe_split_Ok data tw tmin tmax) in Hsplit
    by (auto; lia).
  destruct (window_count_pos tmin tmax tw Hle Htw) as [Hq _].
  rewrite Hq in Hsplit. by injection Hsplit as <-.
Qed.

(** The split loses and invents nothing.  For a positive width, in the range
    where the code's int64 sums and float quotient are exact, every partition
    is a sub-list of the data, rows in their original order, and every row of
    the data is in at least one partition. *)
Theorem split_partitions_cover data tw df_split :
  0 < tw → exact_split data tw → dataframe_split data tw = Ok df_split →
  (∀ p, p ∈ df_split → sublist p data) ∧
  (∀ r, r ∈ data → ∃ i p, df_split !! i = Some p ∧ r ∈ p).
Proof.
  intros Htw _ (tmin & tmax & Hmin & Hmax & Hle & ->)%dataframe_split_inv; [|done].
  split.
  - intros p (i & -> & _)%list_elem_of_fmap. apply sublist_filter.
  - intros r Hr.
    apply series_min_Some in Hmin as [_ Hlow].
    apply series_max_Some in Hmax as [_ Hup].
    pose proof (Hlow _ (list_elem_of_fmap_2 sampletimestamp _ _ Hr)) as H1.
    pose proof (Hup _ (list_elem_of_fmap_2 sampletimestamp _ _ Hr)) as H2.
    set (q := (sampletimestamp r - tmin) `div` tw).
    assert (0 ≤ q) by (apply Z.div_pos; lia).
    assert (q ≤ (tmax - tmin) `div` tw) by (apply Z.div_le_mono; lia).
    exists (Z.to_nat q), (slice data tmin tw (Z.to_nat q)).
    rewrite slice_lookup by lia. split; [done|].
    apply list_elem_of_filter. split; [|done].
    unfold in_window, window_start. rewrite Z2Nat.id by done.
    pose proof (Z.div_mod (sampletimestamp r - tmin) tw ltac:(lia)) as Hdm.
    pose proof (Z.mod_pos_bound (sampletimestamp r - tmin) tw Htw).
    fold q in Hdm. lia.
Qed.

(** A row is in at most two partitions: if it is in two of them, they are
    consecutive and the row sits on the bound they share. *)
Theorem split_row_in_at_most_two data tw df_split tmin (i j : nat) p q r :
  0 < tw → dataframe_split data tw = Ok df_split →
  series_min (sampletimestamp <$> data) = Some tmin →
  df_split !! i = Some p → df_split !! j = Some q →
  r ∈ p → r ∈ q → (i < j)%nat →
  j = S i ∧ sampletimestamp r = window_start tmin tw j.
Proof.
  intros Htw (tmin' & tmax & Hmin & Hmax & Hle & ->)%dataframe_split_inv
    Hmin' Hp Hq Hrp Hrq Hij; [|done].
  assert (tmin' = tmin) as -> by congruence.
  apply list_lookup_fmap_Some in Hp as (i' & -> & [-> _]%lookup_seq).
  apply list_lookup_fmap_Some in Hq as (j' & -> & [-> _]%lookup_seq).
  simpl in *. apply list_elem_of_filter in Hrp as [[_ Hp2] _].
  apply list_elem_of_filter in Hrq as [[Hq1 _] _].
  unfold window_start in *. split; nia.
Qed.

(** In the range where the code's int64 sums and float quotient are exact, a
    trace shorter than the width is one partition, the whole data. *)
Theorem split_short_trace data tw tmin tmax :
  series_min (sampletimestamp <$> data) = Some tmin →
  series_max (sampletimestamp <$> data) = Some tmax →
  tmax - tmin < tw →
  exact_split data tw →
  dataframe_split data tw = Ok [data].
Proof.
  intros Hmin Hmax Hlt _.
  pose proof (series_min_le_max _ _ _ Hmin Hmax) as Hle.
  rewrite (dataframe_split_Ok data tw tmin tmax) by (auto; lia).
  rewrite Z.quot_small by lia. simpl. do 2 f_equal. unfold slice.
  apply filter_all. intros r Hr.
  apply series_min_Some in Hmin as [_ Hlow].
  apply series_max_Some in Hmax as [_ Hup].
  pose proof (Hlow _ (list_elem_of_fmap_2 sampletimestamp _ _ Hr)).
  pose proof (Hup _ (list_elem_of_fmap_2 sampletimestamp _ _ Hr)).
  unfold in_window, window_start. lia.
Qed.

(** In the range where the code's int64 sums and float quotient are exact,
    the first partition holds the earliest rows and the last one the latest
    rows, so neither is empty; the partitions between them may be. *)
Theorem split_first_and_last_nonempty data tw df_split :
  0 < tw → exact_split data tw → dataframe_split data tw = Ok df_split →
  ∃ p0 pn rmin rmax tmin tmax,
    series_min (sampletimestamp <$> data) = Some tmin ∧
    series_max (sampletimestamp <$> data) = Some tmax ∧
    head df_split = Some p0 ∧ last df_split = Some pn ∧
    rmin ∈ p0 ∧ sampletimestamp rmin = tmin ∧
    rmax ∈ pn ∧ sampletimestamp rmax = tmax.
Proof.
  intros Htw _ (tmin & tmax & Hmin & Hmax & Hle & ->)%dataframe_split_inv; [|done].
  apply series_min_Some in Hmin as Hmin'. destruct Hmin' as [Hmin_in Hlow].
  apply series_max_Some in Hmax as Hmax'. destruct Hmax' as [Hmax_in Hup].
  apply list_elem_of_fmap in Hmin_in as (rmin & Hrmin & Hrmin_in).
  apply list_elem_of_fmap in Hmax_in as (rmax & Hrmax & Hrmax_in).
  set (q := (tmax - tmin) `div` tw).
  assert (0 ≤ q) by (apply Z.div_pos; lia).
  exists (slice data tmin tw 0), (slice data tmin tw (Z.to_nat q)),
    rmin, rmax, tmin, tmax.
  split; [done|]. split; [done|]. split; [|split; [|split; [|split; [done|split]]]].
  - replace (Z.to_nat (q + 1)) with (S (Z.to_nat q)) by lia. done.
  - rewrite last_lookup, length_fmap, length_seq.
    replace (pred (Z.to_nat (q + 1))) with (Z.to_nat q) by lia.
    apply slice_lookup. lia.
  - apply list_elem_of_filter. split; [|done].
    unfold in_window. rewrite window_start_0. lia.
  - apply list_elem_of_filter. split; [|done].
    unfold in_window, window_start. rewrite Z2Nat.id by done.
    pose proof (Z.div_mod (tmax - tmin) tw ltac:(lia)) as Hdm.
    pose proof (Z.mod_pos_bound (tmax - tmin) tw Htw). fold q in Hdm. lia.
  - done.
Qed.

(** Whatever the width, the rows of a partition are rows of the data. *)
Lemma partition_rows_in_data data tw df_split p r :
  dataframe_split data tw = Ok df_split → p ∈ df_split → r ∈ p → r ∈ data.
Proof.
  unfold dataframe_split.
  destruct (series_min (sampletimestamp <$> data)) as [tmin|]; [|done].
  destruct (series_max (sampletimestamp <$> data)) as [tmax|]; [|done].
  destruct (window_count tmin tmax tw); [|done]. simpl.
  intros [= <-]. rewrite split_loop_spec. simpl.
  intros (k & -> & _)%list_elem_of_fmap. by intros [_ ?]%list_elem_of_filter.
Qed.

End SplitMore.

(** ** Overlap rows, beyond their orientation *)

Section IntersectionsMore.
Context {geometry : Type}.
Variable intersects : geometry → geometry → bool.
Implicit Types (data p : list (@record geometry)) (e : OverlapEvent).

(** A partition whose rows all belong to one user (or that has no row)
    yields no overlap row, whatever the areas. *)
Theorem single_user_no_overlap p :
  (∀ r r', r ∈ p → r' ∈ p → user_id r = user_id r') →
  intersections intersects p = [].
Proof.
  intros Hone. apply elem_of_nil_inv. intros e He.
  apply overlap_row_intersecting_rows in He as (i & j & Hi & Hj & Hne & _).
  by apply Hne, Hone.
Qed.

(** The two observations of an overlap row lie within the bounds of the
    window of that row, hence at most 150 seconds apart. *)
Theorem overlap_within_window data dfs (w : nat) df e :
  get_intersections intersects data = Ok dfs →
  dfs !! w = Some df → e ∈ df →
  ∃ tmin,
    series_min (sampletimestamp <$> data) = Some tmin ∧
    window_start tmin 150 w ≤ timestamp_uid_1 e ≤ window_start tmin 150 w + 150 ∧
    window_start tmin 150 w ≤ timestamp_uid_2 e ≤ window_start tmin 150 w + 150 ∧
    Z.abs (timestamp_uid_1 e - timestamp_uid_2 e) ≤ 150.
Proof.
  intros (df_split & Hsplit & ->)%get_intersections_Ok Hw He.
  apply dataframe_split_inv in Hsplit
    as (tmin & tmax & Hmin & Hmax & Hle & ->); [|done].
  apply list_lookup_fmap_Some in Hw as (p & -> & Hp).
  apply list_lookup_fmap_Some in Hp as (w' & -> & [-> _]%lookup_seq).
  apply overlap_row_intersecting_rows in He
    as (i & j & Hi & Hj & _ & _ & ->).
  apply list_elem_of_filter in Hi as [[Hi1 Hi2] _].
  apply list_elem_of_filter in Hj as [[Hj1 Hj2] _].
  exists tmin. simpl in *. repeat split; try done; lia.
Qed.

(** The users and the instants of an overlap row are those of two rows of
    the data. *)
Theorem overlap_rows_from_data data dfs df e :
  get_intersections intersects data = Ok dfs → df ∈ dfs → e ∈ df →
  ∃ r1 r2, r1 ∈ data ∧ r2 ∈ data ∧
    e = mk_overlap (user_id r1) (sampletimestamp r1)
                   (user_id r2) (sampletimestamp r2) ∧
    intersects (short_range_communication_area r1)
               (short_range_communication_area r2) = true.
Proof.
  intros (df_split & Hsplit & ->)%get_intersections_Ok
    (p & -> & Hp)%list_elem_of_fmap He.
  apply overlap_row_intersecting_rows in He
    as (i & j & Hi & Hj & _ & Hint & ->).
  pose proof (partition_rows_in_data data 150 df_split p) as Hsub.
  exists i, j. auto.
Qed.

End IntersectionsMore.

(** ** The returned table *)

Section BindFacts.
Context {A B C : Type}.

Lemma bind_bind (f : A → list B) (g : B → list C) (l : list A) :
  (l ≫= f) ≫= g = l ≫= (λ x, f x ≫= g).
Proof.
  induction l as [|a l IH]; [done|]. by rewrite !bind_cons, bind_app, IH.
Qed.

Lemma length_bind_const (f : A → list B) (n : nat) (l : list A) :
  (∀ x, x ∈ l → length (f x) = n) → length (l ≫= f) = (n * length l)%nat.
Proof.
  induction l as [|a l IH]; intros Hf; [simpl; lia|].
  rewrite bind_cons, length_app, IH, Hf.
  - simpl. lia.
  - apply list_elem_of_here.
  - intros x Hx. by apply Hf, list_elem_of_further.
Qed.

Lemma bind_ext_elem (f g : A → list B) (l : list A) :
  (∀ x, x ∈ l → f x = g x) → l ≫= f = l ≫= g.
Proof.
  induction l as [|a l IH]; intros Hfg; [done|].
  rewrite !bind_cons, IH, Hfg; [done|apply list_elem_of_here|].
  intros x Hx. by apply Hfg, list_elem_of_further.
Qed.

Lemma bind_nil_iff (f : A → list B) (l : list A) :
  l ≫= f = [] ↔ ∀ x, x ∈ l → f x = [].
Proof.
  induction l as [|a l IH]; [by split; [intros _ x ?%elem_of_nil|]|].
  rewrite bind_cons. split.
  - intros [Ha Hl]%app_eq_nil x [->|Hx]%elem_of_cons; [done|].
    by apply IH.
  - intros Hf. rewrite (Hf a) by apply list_elem_of_here. simpl.
    apply IH. intros x Hx. by apply Hf, list_elem_of_further.
Qed.

End BindFacts.

Section Table.
Context {geometry : Type} {S : PySet}.
Variable intersects : geometry → geometry → bool.
Implicit Types (data p : list (@record geometry)).
Implicit Types (df : list OverlapEvent) (e : OverlapEvent) (row : ColocationEvent).

(** The rows of a couple that has an overlap row are the block of its
    contact. *)
Lemma couple_rows_block df c :
  c ∈ users_couples py_set_iter df →
  couple_rows df c = block (contact df c) ∧
  ∃ a b t t', contact df c = (a, b, t, t') ∧ t ≤ t' ∧
    (∃ e, e ∈ df ∧ couple_of e = (a, b)) ∧
    (∃ e, e ∈ df ∧ (timestamp_uid_1 e = t ∨ timestamp_uid_2 e = t)) ∧
    (∃ e, e ∈ df ∧ (timestamp_uid_1 e = t' ∨ timestamp_uid_2 e = t')).
Proof.
  intros (e & He & <-)%elem_of_users_couples.
  destruct (couple_rows_times df e He) as (tmin & tmax & Hmin & Hmax & Hle).
  unfold couple_rows, contact. rewrite Hmin, Hmax. simpl. split; [done|].
  exists (uid_1 e), (uid_2 e), tmin, tmax. split; [done|]. split; [done|].
  split; [by exists e|].
  apply series_min_Some in Hmin as [Hmin _].
  apply series_max_Some in Hmax as [Hmax _].
  apply elem_of_df_time_of in Hmin as (e1 & [_ He1]%elem_of_sc_of & H1).
  apply elem_of_df_time_of in Hmax as (e2 & [_ He2]%elem_of_sc_of & H2).
  split; [exists e1|exists e2]; split; try done;
    destruct H1, H2; auto.
Qed.

Lemma coloc_blocks df :
  coloc py_set_iter df = (contact df <$> users_couples py_set_iter df) ≫= block.
Proof.
  unfold coloc. rewrite list_fmap_bind. apply bind_ext_elem.
  intros c Hc. by apply couple_rows_block.
Qed.

Lemma length_block g : length (block g) = 4%nat.
Proof. by destruct g as [[[a b] t] t']. Qed.

(** A window emits four rows for each distinct couple of its overlap
    rows. *)
Theorem coloc_length df :
  length (coloc py_set_iter df) = (4 * length (unique (couple_of <$> df)))%nat.
Proof.
  rewrite coloc_blocks.
  rewrite (length_bind_const _ 4) by (intros; apply length_block).
  rewrite length_fmap. f_equal. apply Permutation_length, NoDup_Permutation.
  - apply NoDup_users_couples.
  - apply NoDup_unique.
  - intros c. unfold users_couples. by rewrite py_set_iter_elem, elem_of_unique.
Qed.

Lemma table_rows_blocks (df_split : list (list (@record geometry))) :
  df_split ≫= (λ p, coloc py_set_iter (intersections intersects p)) =
  table_contacts intersects py_set_iter df_split ≫= block.
Proof.
  unfold table_contacts. rewrite bind_bind. apply bind_ext_elem. intros p _.
  apply coloc_blocks.
Qed.

Lemma table_contacts_ok (df_split : list (list (@record geometry))) a b t t' :
  (a, b, t, t') ∈ table_contacts intersects py_set_iter df_split →
  a ≠ b ∧ t ≤ t'.
Proof.
  intros (p & Hg & _)%list_elem_of_bind.
  apply list_elem_of_fmap in Hg as (c & Hc & Hin).
  destruct (couple_rows_block _ c Hin)
    as (_ & a' & b' & t1 & t2 & Hcontact & Hle & (e & He & Hcouple) & _).
  rewrite <-Hc in Hcontact. injection Hcontact as <- <- <- <-.
  split; [|done]. apply intersections_no_self_pair in He.
  unfold couple_of in Hcouple. injection Hcouple as <- <-. done.
Qed.

(** The returned table is a sequence of blocks of four rows
    (a,b,t,up), (a,b,t',down), (b,a,t,up), (b,a,t',down), each with two
    different users and [t <= t']. *)
Theorem table_blocks data out :
  get_colocations intersects py_set_iter data = Ok out →
  ∃ contacts : list (Z * Z * Z * Z),
    out.*2 = contacts ≫= block ∧
    length out = (4 * length contacts)%nat ∧
    ∀ a b t t', (a, b, t, t') ∈ contacts → a ≠ b ∧ t ≤ t'.
Proof.
  intros (df_split & _ & Hrows & _)%get_colocations_Ok.
  exists (table_contacts intersects py_set_iter df_split).
  pose proof (table_rows_blocks df_split) as Hblocks. rewrite <-Hrows in Hblocks.
  split; [done|]. split.
  - rewrite <-(length_fmap snd out), Hblocks.
    apply length_bind_const. intros; apply length_block.
  - apply table_contacts_ok.
Qed.

End Table.

Section TableMore.
Context {geometry : Type} {S : PySet}.
Variable intersects : geometry → geometry → bool.
Implicit Types (data p : list (@record geometry)).
Implicit Types (df : list OverlapEvent) (e : OverlapEvent) (row : ColocationEvent).

(** The table is symmetric, and its "up" and "down" rows come in pairs: with
    a row it holds the row of the opposite direction between the same users;
    an "up" row at [t] has a "down" row for the same users at some [t' >= t],
    and a "down" row at [t'] has an "up" row at some [t <= t']. *)
Theorem table_symmetric_and_paired data out row :
  get_colocations intersects py_set_iter data = Ok out →
  row ∈ out.*2 →
  mk_coloc (node_2 row) (node_1 row) (timestamp row) (conn row) ∈ out.*2 ∧
  ∃ t t', t ≤ t' ∧
    mk_coloc (node_1 row) (node_2 row) (Some t) up ∈ out.*2 ∧
    mk_coloc (node_1 row) (node_2 row) (Some t') down ∈ out.*2 ∧
    (conn row = up → timestamp row = Some t) ∧
    (conn row = down → timestamp row = Some t').
Proof.
  intros (df_split & _ & Hrows & _)%get_colocations_Ok Hrow.
  rewrite Hrows, table_rows_blocks in *.
  apply list_elem_of_bind in Hrow as ([[[a b] t] t'] & Hrow & Hg).
  destruct (table_contacts_ok intersects df_split a b t t' Hg) as [_ Hle].
  assert (∀ r, r ∈ block (a, b, t, t') →
            r ∈ table_contacts intersects py_set_iter df_split ≫= block) as Hin.
  { intros r Hr. apply list_elem_of_bind. by exists (a, b, t, t'). }
  simpl in Hrow. rewrite !elem_of_cons, elem_of_nil in Hrow.
  destruct Hrow as [->|[->|[->|[->|[]]]]]; simpl;
    (split; [apply Hin; simpl; in_list|]);
    exists t, t'; (split; [done|]);
    repeat split; try done; try (apply Hin; simpl; in_list).
Qed.

(** Where a row of the table comes from: a window, an overlap row of its
    couple and an overlap row carrying its instant. *)
Lemma table_row_origin data out row :
  get_colocations intersects py_set_iter data = Ok out →
  row ∈ out.*2 →
  ∃ df_split p e e', dataframe_split data 150 = Ok df_split ∧ p ∈ df_split ∧
    e ∈ intersections intersects p ∧ e' ∈ intersections intersects p ∧
    same_pair (couple_of e) (node_1 row, node_2 row) ∧
    (timestamp row = Some (timestamp_uid_1 e') ∨
     timestamp row = Some (timestamp_uid_2 e')).
Proof.
  intros (df_split & Hsplit & Hrows & _)%get_colocations_Ok Hrow.
  rewrite Hrows in Hrow.
  apply list_elem_of_bind in Hrow as (p & Hrow & Hp).
  rewrite coloc_blocks in Hrow.
  apply list_elem_of_bind in Hrow as (g & Hrow & Hg).
  apply list_elem_of_fmap in Hg as (c & -> & Hc).
  destruct (couple_rows_block _ c Hc)
    as (_ & a & b & t & t' & Hcontact & _ & (e & He & Hcouple)
          & (e1 & He1 & Ht) & (e2 & He2 & Ht')).
  rewrite Hcontact in Hrow. simpl in Hrow.
  rewrite !elem_of_cons, elem_of_nil in Hrow.
  assert (timestamp_uid_1 e1 = t ∨ timestamp_uid_2 e1 = t →
          Some t = Some (timestamp_uid_1 e1) ∨ Some t = Some (timestamp_uid_2 e1))
    as Hup by (intros [<-|<-]; auto).
  assert (timestamp_uid_1 e2 = t' ∨ timestamp_uid_2 e2 = t' →
          Some t' = Some (timestamp_uid_1 e2) ∨ Some t' = Some (timestamp_uid_2 e2))
    as Hdown by (intros [<-|<-]; auto).
  destruct Hrow as [->|[->|[->|[->|[]]]]]; simpl.
  - exists df_split, p, e, e1. unfold same_pair. rewrite Hcouple. auto 10.
  - exists df_split, p, e, e2. unfold same_pair. rewrite Hcouple. auto 10.
  - exists df_split, p, e, e1. unfold same_pair. rewrite Hcouple. auto 10.
  - exists df_split, p, e, e2. unfold same_pair. rewrite Hcouple. auto 10.
Qed.

(** The table invents nothing: the two users of a row are users of rows of
    the data, and its timestamp is the timestamp of a row of the data (never
    the missing value). *)
Theorem table_rows_from_data data out row :
  get_colocations intersects py_set_iter data = Ok out →
  row ∈ out.*2 →
  ∃ r1 r2 r, r1 ∈ data ∧ r2 ∈ data ∧ r ∈ data ∧
    node_1 row = user_id r1 ∧ node_2 row = user_id r2 ∧
    timestamp row = Some (sampletimestamp r).
Proof.
  intros Hout Hrow.
  destruct (table_row_origin data out row Hout Hrow)
    as (df_split & p & e & e' & Hsplit & Hp & He & He' & Hpair & Ht).
  pose proof (partition_rows_in_data data 150 df_split p) as Hsub.
  apply overlap_row_intersecting_rows in He as (i & j & Hi & Hj & _ & _ & ->).
  apply overlap_row_intersecting_rows in He' as (i' & j' & Hi' & Hj' & _ & _ & ->).
  simpl in Ht. unfold same_pair, couple_of in Hpair. simpl in Hpair.
  assert (∃ r, r ∈ data ∧ timestamp row = Some (sampletimestamp r))
    as (r & Hr & Hts) by (destruct Ht; eauto).
  destruct Hpair as [[= -> ->]|[= -> ->]].
  - exists i, j, r. auto 10.
  - exists j, i, r. auto 10.
Qed.

(** The table is empty exactly when no window has an overlap row. *)
Theorem table_empty_iff data dfs out :
  get_intersections intersects data = Ok dfs →
  get_colocations intersects py_set_iter data = Ok out →
  out = [] ↔ ∀ df, df ∈ dfs → df = [].
Proof.
  intros (df_split & Hsplit & ->)%get_intersections_Ok
         (df_split' & Hsplit' & Hrows & _)%get_colocations_Ok.
  assert (df_split' = df_split) as -> by congruence.
  assert (∀ df, coloc py_set_iter df = [] ↔ df = []) as Hcoloc.
  { intros df. unfold coloc. split; [|by intros ->; apply bind_nil_iff;
      intros c (e & ?%elem_of_nil & _)%elem_of_users_couples].
    intros Hnil. destruct df as [|e df]; [done|]. exfalso.
    assert (couple_of e ∈ users_couples py_set_iter (e :: df)) as Hc.
    { apply elem_of_users_couples. exists e. split; [apply list_elem_of_here|done]. }
    rewrite bind_nil_iff in Hnil. by specialize (Hnil _ Hc). }
  split.
  - intros -> df (p & -> & Hp)%list_elem_of_fmap.
    apply Hcoloc. symmetry in Hrows. simpl in Hrows.
    rewrite bind_nil_iff in Hrows. by apply Hrows.
  - intros Hall. apply (fmap_nil_inv snd). rewrite Hrows.
    apply bind_nil_iff. intros p Hp. apply Hcoloc, Hall.
    by apply list_elem_of_fmap_2.
Qed.

End TableMore.

Section Errors.
Context {geometry : Type}.
Variable intersects : geometry → geometry → bool.
Variable set_iter : list (Z * Z) → list (Z * Z).
Implicit Types (data : list (@record geometry)).

(** Without rows the window count cannot be computed and [ValueError]
    propagates from [dataframe_split] through [get_intersections] to
    [get_colocations].  The split with the default width and the search for
    overlaps raise on the empty record set and only on it: with at least one
    row both return.  Nothing is said of the return of [get_colocations],
    which also writes a file. *)
Theorem pipeline_raises_iff_empty data :
  (data = [] →
     dataframe_split data 150 = Raise ValueError ∧
     get_intersections intersects data = Raise ValueError ∧
     get_colocations intersects set_iter data = Raise ValueError) ∧
  (raises (dataframe_split data 150) ↔ data = []) ∧
  (raises (get_intersections intersects data) ↔ data = []).
Proof.
  split; [by intros ->|].
  assert (data ≠ [] → ∃ df_split,
            dataframe_split data 150 = Ok df_split ∧
            get_intersections intersects data
              = Ok (intersections intersects <$> df_split)) as Hret.
  { intros Hne.
    destruct (series_bounds_of_nonempty data Hne)
      as (tmin & tmax & Hmin & Hmax & _).
    pose proof (dataframe_split_Ok data 150 tmin tmax Hmin Hmax ltac:(lia))
      as Hsplit.
    unfold get_intersections. rewrite Hsplit. by eexists. }
  split; (split; [|intros ->; by eexists]); intros [e He];
    destruct (decide (data = [])) as [|Hne]; try done;
    destruct (Hret Hne) as (df_split & Hsplit & Hint); congruence.
Qed.

End Errors.

(** ** Relabelling and the rest of the pipeline *)

Section FmapFacts.
Context {A B C : Type}.

Lemma fmap_bind (f : B → C) (h : A → list B) (l : list A) :
  f <$> (l ≫= h) = l ≫= (λ x, f <$> h x).
Proof.
  induction l as [|a l IH]; [done|]. by rewrite !bind_cons, fmap_app, IH.
Qed.

Lemma fmap_id_elem (f : A → A) (l : list A) :
  (∀ x, x ∈ l → f x = x) → f <$> l = l.
Proof.
  intros Hf. rewrite <-(list_fmap_id l) at 2. apply list_fmap_ext.
  intros i x Hx. apply Hf. by eapply list_elem_of_lookup_2.
Qed.

Lemma filter_fmap_elem (f : A → B) (P : B → Prop) (Q : A → Prop)
    `{!∀ y, Decision (P y), !∀ x, Decision (Q x)} (l : list A) :
  (∀ x, x ∈ l → P (f x) ↔ Q x) → filter P (f <$> l) = f <$> filter Q l.
Proof.
  intros HPQ. rewrite filter_fmap. f_equal. by apply filter_iff_elem.
Qed.

End FmapFacts.

Section Relabelling.
Context {geometry : Type}.
Variable intersects : geometry → geometry → bool.
Implicit Types (data p : list (@record geometry)) (r : @record geometry).

Lemma replace_user_id_columns map_uid r :
  user_id (replace_user_id map_uid r) = default (user_id r) (map_uid !! user_id r) ∧
  sampletimestamp (replace_user_id map_uid r) = sampletimestamp r ∧
  short_range_communication_area (replace_user_id map_uid r) =
    short_range_communication_area r.
Proof. done. Qed.

Lemma new_id_rank data (k : nat) u :
  unique (user_id <$> data) !! k = Some u → new_id data u = Z.of_nat k.
Proof.
  intros Hk. unfold new_id.
  by rewrite (map_uid_lookup _ k u (NoDup_unique _) Hk).
Qed.

Lemma new_id_inj data u v :
  u ∈ user_id <$> data → v ∈ user_id <$> data →
  new_id data u = new_id data v → u = v.
Proof.
  intros [k Hk]%elem_of_unique%list_elem_of_lookup
         [l Hl]%elem_of_unique%list_elem_of_lookup.
  rewrite (new_id_rank data k u Hk), (new_id_rank data l v Hl).
  intros Hkl. assert (k = l) as -> by lia. congruence.
Qed.

Lemma users_mapping_new_id data :
  user_id <$> users_mapping data = new_id data <$> (user_id <$> data).
Proof. apply users_mapping_user_id. Qed.

Lemma users_mapping_unique data :
  unique (user_id <$> users_mapping data) =
  Z.of_nat <$> seq 0 (length (unique (user_id <$> data))).
Proof.
  rewrite users_mapping_new_id, unique_fmap_inj by apply new_id_inj.
  apply list_eq. intros k. rewrite !list_lookup_fmap.
  destruct (unique (user_id <$> data) !! k) as [u|] eqn:Hk; simpl.
  - rewrite (new_id_rank data k u Hk).
    rewrite lookup_seq_lt; [done|]. by eapply lookup_lt_Some.
  - apply lookup_ge_None in Hk. by rewrite lookup_seq_ge.
Qed.

(** Data whose users are already labelled 0, 1, 2, ... in order of first
    appearance is left as it is; in particular relabelling twice is relabelling
    once. *)
Theorem users_mapping_idempotent data :
  (unique (user_id <$> data) =
     Z.of_nat <$> seq 0 (length (unique (user_id <$> data))) →
   users_mapping data = data) ∧
  users_mapping (users_mapping data) = users_mapping data.
Proof.
  assert (∀ d : list (@record geometry),
    unique (user_id <$> d) = Z.of_nat <$> seq 0 (length (unique (user_id <$> d))) →
    users_mapping d = d) as Hdense.
  { intros d Hd. unfold users_mapping. apply fmap_id_elem. intros r Hr.
    assert (user_id r ∈ unique (user_id <$> d)) as [k Hk]%list_elem_of_lookup
      by (by apply elem_of_unique, list_elem_of_fmap_2).
    pose proof (new_id_rank d k _ Hk) as Hrank. unfold new_id in Hrank.
    rewrite Hd in Hk at 1. rewrite list_lookup_fmap in Hk.
    apply fmap_Some in Hk as (k' & [-> _]%lookup_seq & Hu). simpl in Hu.
    unfold replace_user_id. rewrite Hrank, <-Hu. by destruct r. }
  split; [apply Hdense|]. apply Hdense.
  rewrite users_mapping_unique. by rewrite length_fmap, length_seq.
Qed.

Lemma dataframe_split_fmap (g : @record geometry → @record geometry) data tw :
  (∀ r, sampletimestamp (g r) = sampletimestamp r) →
  dataframe_split (g <$> data) tw =
  match dataframe_split data tw with
  | Ok df_split => Ok (fmap (M := list) g <$> df_split)
  | Raise x => Raise x
  end.
Proof.
  intros Hg. unfold dataframe_split.
  replace (sampletimestamp <$> (g <$> data)) with (sampletimestamp <$> data).
  2:{ rewrite <-list_fmap_compose. apply list_fmap_ext. intros _ r _. simpl.
      by rewrite Hg. }
  destruct (series_min (sampletimestamp <$> data)) as [tmin|]; [|done].
  destruct (series_max (sampletimestamp <$> data)) as [tmax|]; [|done].
  destruct (window_count tmin tmax tw) as [df_s|]; [|done]. simpl. f_equal.
  rewrite !split_loop_spec. simpl. rewrite <-list_fmap_compose.
  apply list_fmap_ext. intros _ i _. simpl. unfold slice.
  apply filter_fmap_elem. intros r _. unfold in_window. by rewrite Hg.
Qed.

(** The overlap rows of a relabelled partition are the relabelled overlap
    rows, when the relabelling keeps different users different and changes
    only the [user_id] column. *)
Lemma intersections_fmap (g : @record geometry → @record geometry) (f : Z → Z) p :
  (∀ r, user_id (g r) = f (user_id r) ∧
        sampletimestamp (g r) = sampletimestamp r ∧
        short_range_communication_area (g r) = short_range_communication_area r) →
  (∀ u v, u ∈ user_id <$> p → v ∈ user_id <$> p → f u = f v → u = v) →
  intersections intersects (g <$> p) = relabel f <$> intersections intersects p.
Proof.
  intros Hg Hinj. unfold intersections.
  assert (user_id <$> (g <$> p) = f <$> (user_id <$> p)) as Hids.
  { rewrite <-!list_fmap_compose. apply list_fmap_ext. intros _ r _. apply Hg. }
  rewrite Hids, (unique_fmap_inj f) by done.
  set (users := unique (user_id <$> p)).
  assert (∀ u, u ∈ users →
    df_dfs_of (g <$> p) (f <$> users) !!! f u = g <$> df_dfs_of p users !!! u)
    as Hdfs.
  { intros u Hu. rewrite !df_dfs_of_lookup by (done || by apply list_elem_of_fmap_2).
    apply filter_fmap_elem. intros r Hr. destruct (Hg r) as (-> & _). split.
    - apply Hinj; [by apply list_elem_of_fmap_2|].
      unfold users in Hu. by rewrite elem_of_unique in Hu.
    - by intros ->. }
  rewrite length_fmap, fmap_bind. apply bind_ext_elem. intros k _.
  rewrite list_lookup_fmap.
  destruct (users !! k) as [subject|] eqn:Hk; [|done]. simpl.
  assert (subject ∈ users) as Hsubj by (by eapply list_elem_of_lookup_2).
  rewrite Hdfs, list_fmap_bind, fmap_bind by done.
  apply bind_ext_elem. intros i _. simpl.
  rewrite <-fmap_drop, list_fmap_bind, fmap_bind.
  apply bind_ext_elem. intros usr Husr. simpl.
  assert (usr ∈ users) as Husr'.
  { apply list_elem_of_lookup in Husr as [m Hm]. rewrite lookup_drop in Hm.
    by eapply list_elem_of_lookup_2. }
  rewrite Hdfs, list_fmap_bind, fmap_bind by done.
  apply bind_ext_elem. intros j _. simpl. unfold intersection_row.
  destruct (Hg i) as (-> & -> & ->). destruct (Hg j) as (-> & -> & ->).
  by destruct (intersects _ _).
Qed.

(** Relabelling the users does not change which overlaps are found:
    [get_intersections] on the relabelled data returns the overlap rows of the
    original data, window by window and row by row, with the new labels; and it
    fails when the original does. *)
Theorem users_mapping_preserves_overlaps data :
  get_intersections intersects (users_mapping data) =
  match get_intersections intersects data with
  | Ok dfs => Ok (fmap (M := list) (relabel (new_id data)) <$> dfs)
  | Raise x => Raise x
  end.
Proof.
  unfold get_intersections, users_mapping.
  rewrite dataframe_split_fmap by done.
  destruct (dataframe_split data 150) as [df_split|] eqn:Hsplit; [|done].
  simpl. f_equal. rewrite <-!list_fmap_compose.
  apply list_fmap_ext. intros i p Hp. simpl.
  apply intersections_fmap.
  - intros r. apply replace_user_id_columns.
  - pose proof (partition_rows_in_data data 150 df_split p) as Hsub.
    apply list_elem_of_lookup_2 in Hp.
    intros u v (ru & -> & Hu)%list_elem_of_fmap (rv & -> & Hv)%list_elem_of_fmap.
    apply new_id_inj; apply list_elem_of_fmap_2; auto.
Qed.

End Relabelling.

(** ** The steps before the split *)

Section FloatFacts.

Lemma SFcompare_refl (x : SpecFloat.spec_float) :
  x ≠ SpecFloat.S754_nan → SpecFloat.SFcompare x x = Some Eq.
Proof.
  destruct x as [s|s| |s m e]; try done; intros _; simpl.
  - by destruct s.
  - destruct s; rewrite Z.compare_refl, Pos.compare_cont_refl; done.
Qed.

(** A missing value compares false with everything. *)
Lemma leb_nan (x y : float) : PrimFloat.is_nan x = true → PrimFloat.leb x y = false.
Proof.
  unfold PrimFloat.is_nan. rewrite FloatAxioms.eqb_spec, FloatAxioms.leb_spec.
  unfold SpecFloat.SFeqb, SpecFloat.SFleb.
  destruct (Prim2SF x) as [s|s| |s m e] eqn:Hx; [| |done|];
    by rewrite SFcompare_refl.
Qed.

End FloatFacts.

Section PreprocessingFacts.
Context {geometry : Type}.
Variable buffer : float → float → float → geometry.

(** For a limit that is a 64-bit integer, [accuracy_threshold] keeps, in their
    order, the rows whose accuracy compares at most the float nearest to the
    limit; a row without accuracy (NaN) is dropped whatever the limit;
    filtering again with the same limit changes nothing. *)
Theorem accuracy_threshold_keeps {G} (data : list (@record G)) (limit : Z) :
  int64 limit →
  sublist (accuracy_threshold data limit) data ∧
  (∀ r, r ∈ accuracy_threshold data limit ↔
        r ∈ data ∧ PrimFloat.leb (accuracy r) (float_of_int limit) = true) ∧
  (∀ r, PrimFloat.is_nan (accuracy r) = true → r ∉ accuracy_threshold data limit) ∧
  accuracy_threshold (accuracy_threshold data limit) limit =
    accuracy_threshold data limit.
Proof.
  intros _.
  unfold accuracy_threshold. split; [apply sublist_filter|]. split; [|split].
  - intros r. rewrite list_elem_of_filter. tauto.
  - intros r Hnan [Hle _]%list_elem_of_filter.
    by rewrite (leb_nan _ _ Hnan) in Hle.
  - apply filter_all. by intros r [? _]%list_elem_of_filter.
Qed.

(** [from_datetime_to_timestamp] keeps the rows in place and replaces each
    datetime by the whole seconds below it, also before the epoch; the order
    of the instants is kept; and a 64-bit datetime gives a timestamp between
    -9223372037 and 9223372036. *)
Theorem from_datetime_to_timestamp_floor {G} (data : list (@record G)) :
  length (from_datetime_to_timestamp data) = length data ∧
  (∀ (i : nat) r, data !! i = Some r →
     ∃ r', from_datetime_to_timestamp data !! i = Some r' ∧
       user_id r' = user_id r ∧
       short_range_communication_area r' = short_range_communication_area r ∧
       sampletimestamp r' * 10 ^ 9 ≤ sampletimestamp r
         < (sampletimestamp r' + 1) * 10 ^ 9 ∧
       (- 2 ^ 63 ≤ sampletimestamp r < 2 ^ 63 →
        -9223372037 ≤ sampletimestamp r' ≤ 9223372036)) ∧
  (∀ (i j : nat) ri rj ri' rj',
     data !! i = Some ri → data !! j = Some rj →
     from_datetime_to_timestamp data !! i = Some ri' →
     from_datetime_to_timestamp data !! j = Some rj' →
     sampletimestamp ri ≤ sampletimestamp rj →
     sampletimestamp ri' ≤ sampletimestamp rj').
Proof.
  unfold from_datetime_to_timestamp. split; [by rewrite length_fmap|]. split.
  - intros i r Hr. eexists. rewrite list_lookup_fmap, Hr. split; [done|]. simpl.
    split; [done|]. split; [done|].
    pose proof (Z.div_mod (sampletimestamp r) (10 ^ 9) ltac:(lia)) as Hdm.
    pose proof (Z.mod_pos_bound (sampletimestamp r) (10 ^ 9) ltac:(lia)).
    split; [lia|]. intros [Hlo Hhi]. split.
    + apply Z.div_le_lower_bound; lia.
    + apply Z.lt_succ_r, Z.div_lt_upper_bound; lia.
  - intros i j ri rj ri' rj' Hi Hj. rewrite !list_lookup_fmap, Hi, Hj.
    intros [= <-] [= <-] Hle. simpl. apply Z.div_le_mono; lia.
Qed.

(** After the conversion of 64-bit datetimes the trace is in the range
    [exact_split] of the split with the default width: every timestamp and
    every bound [timestamp + 150] is a 64-bit integer, and the span of the
    trace is below 2^35, far below 2^53. *)
Theorem converted_span_small {G} (data : list (@record G)) :
  (∀ r, r ∈ data → int64 (sampletimestamp r)) →
  exact_split (from_datetime_to_timestamp data) 150 ∧
  ∀ tmin tmax,
    series_min (sampletimestamp <$> from_datetime_to_timestamp data) = Some tmin →
    series_max (sampletimestamp <$> from_datetime_to_timestamp data) = Some tmax →
    0 ≤ tmax - tmin < 2 ^ 35.
Proof.
  intros Hint.
  assert (∀ r, r ∈ from_datetime_to_timestamp data →
            -9223372037 ≤ sampletimestamp r ≤ 9223372036) as Hrange.
  { unfold from_datetime_to_timestamp.
    intros r' (r & -> & Hr)%list_elem_of_fmap. simpl.
    pose proof (Hint r Hr) as [Hlo Hhi]. split.
    - apply Z.div_le_lower_bound; lia.
    - apply Z.lt_succ_r, Z.div_lt_upper_bound; lia. }
  split.
  - split; [lia|]. apply Forall_forall. intros r Hr.
    pose proof (Hrange r Hr). unfold int64. split; [lia|]. split; [lia|].
    apply Forall_forall. intros r' Hr'. pose proof (Hrange r' Hr'). lia.
  - intros tmin tmax Hmin Hmax.
    pose proof (series_min_le_max _ _ _ Hmin Hmax).
    apply series_min_Some in Hmin as [(rmin & -> & Hrmin)%list_elem_of_fmap _].
    apply series_max_Some in Hmax as [(rmax & -> & Hrmax)%list_elem_of_fmap _].
    pose proof (Hrange _ Hrmin). pose proof (Hrange _ Hrmax). lia.
Qed.

(** The steps that touch different columns can be taken in any order:
    the accuracy filter, the area column, the conversion of the datetimes and
    the relabelling of the users commute, except the filter with the
    relabelling. *)
Theorem preprocessing_steps_commute {G} (data : list (@record G)) (limit dst : Z) :
  add_short_range_communication_area buffer (accuracy_threshold data limit) dst =
    accuracy_threshold (add_short_range_communication_area buffer data dst) limit ∧
  from_datetime_to_timestamp (accuracy_threshold data limit) =
    accuracy_threshold (from_datetime_to_timestamp data) limit ∧
  from_datetime_to_timestamp (add_short_range_communication_area buffer data dst) =
    add_short_range_communication_area buffer (from_datetime_to_timestamp data) dst ∧
  users_mapping (add_short_range_communication_area buffer data dst) =
    add_short_range_communication_area buffer (users_mapping data) dst ∧
  users_mapping (from_datetime_to_timestamp data) =
    from_datetime_to_timestamp (users_mapping data).
Proof.
  unfold add_short_range_communication_area, from_datetime_to_timestamp,
    accuracy_threshold, users_mapping.
  split; [|split; [|split; [|split]]].
  - symmetry. by apply filter_fmap_elem.
  - symmetry. by apply filter_fmap_elem.
  - rewrite <-!list_fmap_compose. by apply list_fmap_ext.
  - rewrite <-!list_fmap_compose. simpl. by apply list_fmap_ext.
  - rewrite <-!list_fmap_compose. simpl. by apply list_fmap_ext.
Qed.

End PreprocessingFacts.

(** ** The further properties on the scenarios *)

Lemma split_partitions_cover_witness :
  ∃ df_split, dataframe_split Scenario.one_user 150 = Ok df_split ∧
    (∀ p, p ∈ df_split → sublist p Scenario.one_user) ∧
    (∀ r, r ∈ Scenario.one_user → ∃ i p, df_split !! i = Some p ∧ r ∈ p).
Proof.
  eexists. split; [reflexivity|].
  apply (split_partitions_cover Scenario.one_user 150);
    [lia | in_range | reflexivity].
Defined.

Lemma split_row_in_at_most_two_witness :
  1%nat = 1%nat ∧
  sampletimestamp (Scenario.trace 1 4372000 1040000 1150) = window_start 1000 150 1.
Proof.
  apply (split_row_in_at_most_two Scenario.two_users 150
           [ [Scenario.trace 0 4372000 1040000 1000;
              Scenario.trace 1 4372000 1040000 1150];
             [Scenario.trace 1 4372000 1040000 1150;
              Scenario.trace 0 4372000 1040000 1200] ] 1000 0 1
           [Scenario.trace 0 4372000 1040000 1000;
            Scenario.trace 1 4372000 1040000 1150]
           [Scenario.trace 1 4372000 1040000 1150;
            Scenario.trace 0 4372000 1040000 1200]);
    [lia | reflexivity | reflexivity | reflexivity | reflexivity
    | in_list | in_list | lia].
Defined.

Lemma split_short_trace_witness :
  dataframe_split Scenario.three_users 150 = Ok [Scenario.three_users].
Proof.
  apply (split_short_trace Scenario.three_users 150 1000 1030);
    [reflexivity | reflexivity | lia | in_range].
Defined.

Lemma split_first_and_last_nonempty_witness :
  ∃ p0 pn rmin rmax tmin tmax,
    series_min (sampletimestamp <$> Scenario.one_user) = Some tmin ∧
    series_max (sampletimestamp <$> Scenario.one_user) = Some tmax ∧
    head [ [Scenario.trace 0 4372000 1040000 1000;
            Scenario.trace 0 4372000 1040000 1150];
           [Scenario.trace 0 4372000 1040000 1150];
           [Scenario.trace 0 4372000 1040000 1450];
           [Scenario.trace 0 4372000 1040000 1450] ] = Some p0 ∧
    last [ [Scenario.trace 0 4372000 1040000 1000;
            Scenario.trace 0 4372000 1040000 1150];
           [Scenario.trace 0 4372000 1040000 1150];
           [Scenario.trace 0 4372000 1040000 1450];
           [Scenario.trace 0 4372000 1040000 1450] ] = Some pn ∧
    rmin ∈ p0 ∧ sampletimestamp rmin = tmin ∧
    rmax ∈ pn ∧ sampletimestamp rmax = tmax.
Proof.
  apply (split_first_and_last_nonempty Scenario.one_user 150);
    [lia | in_range | reflexivity].
Defined.

Lemma single_user_no_overlap_witness :
  intersections Scenario.disk_intersects Scenario.one_user = [].
Proof.
  apply single_user_no_overlap. unfold Scenario.one_user. intros r r' Hr Hr'.
  rewrite !elem_of_cons, elem_of_nil in Hr, Hr'.
  destruct Hr as [->|[->|[->|[]]]], Hr' as [->|[->|[->|[]]]]; reflexivity.
Defined.

Lemma overlap_within_window_witness :
  ∃ tmin,
    series_min (sampletimestamp <$> Scenario.two_users) = Some tmin ∧
    window_start tmin 150 1 ≤ 1150 ≤ window_start tmin 150 1 + 150 ∧
    window_start tmin 150 1 ≤ 1200 ≤ window_start tmin 150 1 + 150 ∧
    Z.abs (1150 - 1200) ≤ 150.
Proof.
  apply (overlap_within_window Scenario.disk_intersects Scenario.two_users
           [[mk_overlap 0 1000 1 1150]; [mk_overlap 1 1150 0 1200]] 1
           [mk_overlap 1 1150 0 1200] (mk_overlap 1 1150 0 1200));
    [reflexivity | reflexivity | in_list].
Defined.

Lemma overlap_rows_from_data_witness :
  ∃ r1 r2, r1 ∈ Scenario.two_users ∧ r2 ∈ Scenario.two_users ∧
    mk_overlap 1 1150 0 1200 =
      mk_overlap (user_id r1) (sampletimestamp r1)
                 (user_id r2) (sampletimestamp r2) ∧
    Scenario.disk_intersects (short_range_communication_area r1)
                             (short_range_communication_area r2) = true.
Proof.
  apply (overlap_rows_from_data Scenario.disk_intersects Scenario.two_users
           [[mk_overlap 0 1000 1 1150]; [mk_overlap 1 1150 0 1200]]
           [mk_overlap 1 1150 0 1200]);
    [reflexivity | in_list | in_list].
Defined.

Lemma table_blocks_witness :
  ∃ out contacts,
    get_colocations Scenario.disk_intersects py_set_iter Scenario.three_users
      = Ok out ∧
    out.*2 = contacts ≫= block ∧
    length out = (4 * length contacts)%nat ∧
    ∀ a b t t', (a, b, t, t') ∈ contacts → a ≠ b ∧ t ≤ t'.
Proof.
  eexists.
  destruct (table_blocks Scenario.disk_intersects Scenario.three_users _ eq_refl)
    as (contacts & H).
  exists contacts. split; [reflexivity|exact H].
Defined.

Lemma table_symmetric_and_paired_witness :
  ∃ out,
    get_colocations Scenario.disk_intersects py_set_iter Scenario.three_users
      = Ok out ∧
    mk_coloc 0 2 (Some 1020) down ∈ out.*2 ∧
    ∃ t t', t ≤ t' ∧
      mk_coloc 2 0 (Some t) up ∈ out.*2 ∧
      mk_coloc 2 0 (Some t') down ∈ out.*2 ∧
      (down = up → Some 1020 = Some t) ∧
      (down = down → Some 1020 = Some t').
Proof.
  eexists. split; [reflexivity|].
  apply (table_symmetric_and_paired Scenario.disk_intersects Scenario.three_users
           _ (mk_coloc 2 0 (Some 1020) down) eq_refl).
  vm_compute. in_list.
Defined.

Lemma table_rows_from_data_witness :
  ∃ r1 r2 r, r1 ∈ Scenario.three_users ∧ r2 ∈ Scenario.three_users ∧
    r ∈ Scenario.three_users ∧
    2 = user_id r1 ∧ 0 = user_id r2 ∧ Some 1020 = Some (sampletimestamp r).
Proof.
  apply (table_rows_from_data Scenario.disk_intersects Scenario.three_users
           _ (mk_coloc 2 0 (Some 1020) down) eq_refl).
  vm_compute. in_list.
Defined.

(** One user alone: four windows, no overlap row, an empty table. *)
Lemma table_empty_iff_witness :
  @nil (nat * ColocationEvent) = [] ↔
  ∀ df, df ∈ [[]; []; []; []] → df = @nil OverlapEvent.
Proof.
  apply (table_empty_iff Scenario.disk_intersects Scenario.one_user);
    reflexivity.
Defined.

Lemma converted_span_small_witness :
  exact_split (from_datetime_to_timestamp Scenario.raw_trace) 150 ∧
  ∀ tmin tmax,
    series_min (sampletimestamp <$> from_datetime_to_timestamp Scenario.raw_trace)
      = Some tmin →
    series_max (sampletimestamp <$> from_datetime_to_timestamp Scenario.raw_trace)
      = Some tmax →
    0 ≤ tmax - tmin < 2 ^ 35.
Proof.
  apply (converted_span_small Scenario.raw_trace).
  unfold Scenario.raw_trace, int64. intros r Hr.
  rewrite !elem_of_cons, elem_of_nil in Hr.
  destruct Hr as [->|[->|[->|[->|[->|[]]]]]]; simpl; lia.
Defined.

Lemma accuracy_threshold_keeps_witness :
  let data := Scenario.raw_trace in
  sublist (accuracy_threshold data 50) data ∧
  (∀ r, r ∈ accuracy_threshold data 50 ↔
        r ∈ data ∧ PrimFloat.leb (accuracy r) (float_of_int 50) = true) ∧
  (∀ r, PrimFloat.is_nan (accuracy r) = true → r ∉ accuracy_threshold data 50) ∧
  accuracy_threshold (accuracy_threshold data 50) 50 = accuracy_threshold data 50.
Proof.
  apply (accuracy_threshold_keeps Scenario.raw_trace 50). unfold int64. lia.
Defined.

(** Users 0 and 2 of [three_users] stand on the same point. *)
Lemma overlap_row_iff_areas_intersect_witness :
  let p := Scenario.three_users in
  let i := Scenario.trace 0 5372000 1040000 1000 in
  let j := Scenario.trace 2 5372000 1040000 1020 in
  mk_overlap 0 1000 2 1020 ∈ intersections Scenario.disk_intersects p ∧
  mk_overlap 2 1020 0 1000 ∉ intersections Scenario.disk_intersects p.
Proof.
  intros p i j.
  assert (i ∈ p) as Hi by in_list.
  assert (j ∈ p) as Hj by in_list.
  assert (user_id i ≠ user_id j) as Hne by done.
  destruct (overlap_row_iff_areas_intersect Scenario.disk_intersects p i j
              Hi Hj Hne) as [_ Hpair].
  destruct Hpair as (Hyes & _ & _ & Hno).
  - exists 0%nat, 2%nat. split; [lia|]. split; reflexivity.
  - split; [by apply Hyes|exact Hno].
Defined.

(** On the polygons that [buffer] builds, two rows of two users in one
    window whose centres are 0.009995 apart, less than the two radii 0.005
    together, yield no overlap row: between two vertices the polygon reaches
    less far than the disk. *)
Lemma overlap_missed_within_radii :
  let p := add_short_range_communication_area Shapely.buffer
             Scenario.near_rows 500 in
  (∃ i j, p = [i; j] ∧ user_id i ≠ user_id j ∧ centres_within 500 i j) ∧
  dataframe_split p 150 = Ok [p] ∧
  get_intersections Shapely.intersects p = Ok [[]].
Proof.
  split; [|split]; [|vm_compute; reflexivity..].
  eexists _, _. split; [reflexivity|]. split; [done|].
  unfold centres_within. vm_compute. discriminate.
Qed.

(** ** The split out of its range *)

(** On the scenarios the split of the machine is the split over [Z]. *)
Example int64_split_on_scenarios :
  Int64.dataframe_split Scenario.one_user 150 = dataframe_split Scenario.one_user 150 ∧
  Int64.dataframe_split Scenario.two_users 150 = dataframe_split Scenario.two_users 150 ∧
  Int64.dataframe_split Scenario.three_users 150
    = dataframe_split Scenario.three_users 150 ∧
  Int64.dataframe_split Scenario.one_user (-1000)
    = dataframe_split Scenario.one_user (-1000) ∧
  Int64.dataframe_split Scenario.one_user 0 = dataframe_split Scenario.one_user 0.
Proof. repeat split; vm_compute; reflexivity. Qed.

(** Beyond 2^53 the float quotient is rounded: a trace that spans 2^54 - 1
    seconds is split with the width 2^53 into three windows, not two.  At the
    end of the 64-bit range the upper bound of a window wraps around: the only
    window of a trace of one row, 101 seconds before the end, holds no row, so
    the windows do not cover the trace. *)
Lemma window_count_fails_out_of_range :
  (series_min (sampletimestamp <$> Scenario.long_trace) = Some 0 ∧
   series_max (sampletimestamp <$> Scenario.long_trace) = Some (2 ^ 54 - 1) ∧
   (2 ^ 54 - 1 - 0) `div` 2 ^ 53 + 1 = 2 ∧
   ∃ df_split,
     Int64.dataframe_split Scenario.long_trace (2 ^ 53) = Ok df_split ∧
     length df_split = 3%nat) ∧
  Int64.dataframe_split (drop 1 Scenario.late_rows) 150 = Ok [[]].
Proof.
  split; [|vm_compute; reflexivity].
  split; [reflexivity|]. split; [reflexivity|]. split; [reflexivity|].
  eexists. split; [vm_compute; reflexivity|reflexivity].
Qed.

(** At the end of the 64-bit range a row on the bound of two windows is in
    the first one only: the upper bound of the second window wraps around. *)
Lemma boundary_row_lost_at_range_end :
  let r1 := Scenario.trace 0 4372000 1040000 (2 ^ 63 - 251) in
  let r2 := Scenario.trace 1 4372000 1040000 (2 ^ 63 - 101) in
  sampletimestamp r2 = window_start (2 ^ 63 - 251) 150 0 + 150 ∧
  sampletimestamp r2 = window_start (2 ^ 63 - 251) 150 1 ∧
  Int64.dataframe_split Scenario.late_rows 150 = Ok [[r1; r2]; []].
Proof. repeat split; vm_compute; reflexivity. Qed.

(** At the start of the 64-bit range the bound of a negative width wraps
    around, and the single window holds the row. *)
Example negative_width_at_range_start :
  let r := Scenario.trace 0 4372000 1040000 (- 2 ^ 63 + 10) in
  Int64.dataframe_split [r] (-150) = Ok [[r]].
Proof. vm_compute. reflexivity. Qed.
